(** * Tracky: the GTFS schedule index and its queries

    A shallow embedding of [src/utils/gtfs-parser.ts] (class [GTFSParser])
    and the properties of its query operations.

    Conventions of the embedding:
    - a JavaScript [string] is a [string] of code units; the two host
      functions whose result depends on Unicode data or on the locale
      ([String.prototype.toLowerCase], [String.prototype.localeCompare])
      are variables of the section [Host];
    - a JavaScript [number] that the code uses as an integer (sequence
      numbers, [YYYYMMDD] dates, exception types, array indices) is a [Z];
    - a [Map] that the code iterates is an insertion-ordered association
      list ([JsMap]); a [Map] that the code only probes by key is a [gmap];
    - an object that may be [undefined] is an [option];
    - a [forEach] that pushes on a local array is a left fold over the
      array being built. *)

From Stdlib Require Import ZArith String Ascii.
From stdpp Require Import base list strings gmap sorting.

Local Open Scope string_scope.
Local Open Scope list_scope.
Local Open Scope Z_scope.

(** ** JavaScript arrays *)

Module Js.

(** [Array.prototype.slice]: a negative bound counts from the end, both
    bounds are clamped to the array. *)
Definition rel_index (len k : Z) : Z :=
  if k <? 0 then Z.max (len + k) 0 else Z.min k len.

Definition slice {A} (first last : Z) (l : list A) : list A :=
  let len := Z.of_nat (length l) in
  let k := rel_index len first in
  let final := rel_index len last in
  take (Z.to_nat (final - k)) (drop (Z.to_nat k) l).

(** [Array.prototype.findIndex]: the index of the first element that
    satisfies [p], or [-1]. *)
Fixpoint findIndex_from {A} (p : A → bool) (l : list A) (i : Z) : Z :=
  match l with
  | [] => -1
  | x :: r => if p x then i else findIndex_from p r (i + 1)
  end.

Definition findIndex {A} (p : A → bool) (l : list A) : Z :=
  findIndex_from p l 0.

(** [a[i]] for an integer [i]; [None] is [undefined]. *)
Definition at_index {A} (l : list A) (i : Z) : option A :=
  if i <? 0 then None else l !! Z.to_nat i.

(** [Array.prototype.some] and [Array.prototype.find]. *)
Definition some {A} (p : A → bool) (l : list A) : bool := existsb p l.

Definition find {A} (p : A → bool) (l : list A) : option A := List.find p l.

(** [Array.prototype.sort(cmp)]. The sort is stable (ECMAScript 2019), so
    for a comparator that is a total preorder its result is the one
    stable sorted rearrangement; insertion from the right computes it.
    [x] goes before the first element that is not strictly smaller. *)
Fixpoint insert_sorted {A} (cmp : A → A → Z) (x : A) (l : list A) : list A :=
  match l with
  | [] => [x]
  | y :: r => if 0 <? cmp x y then y :: insert_sorted cmp x r else x :: y :: r
  end.

Fixpoint sort {A} (cmp : A → A → Z) (l : list A) : list A :=
  match l with
  | [] => []
  | x :: r => insert_sorted cmp x (sort cmp r)
  end.

(** [a.filter(x => { if (seen.has(key(x))) return false;
                     seen.add(key(x)); return true })]
    with a [Set] of strings [seen] that lives across the callbacks. *)
Fixpoint filter_unseen {A} (key : A → string) (seen : gset string)
    (l : list A) : list A :=
  match l with
  | [] => []
  | x :: r =>
      if bool_decide (key x ∈ seen) then filter_unseen key seen r
      else x :: filter_unseen key ({[ key x ]} ∪ seen) r
  end.

(** The order a comparator stands for: [a] may come before [b]. *)
Definition before {A} (cmp : A → A → Z) (a b : A) : Prop := cmp a b ≤ 0.

(** Truthiness of a string. *)
Definition truthy (s : string) : bool := negb (String.eqb s "").

(** [s || d] on strings. *)
Definition or_else (s d : string) : string := if truthy s then s else d.

End Js.

(** ** JavaScript strings *)

Module JsString.

Definition startsWith (s p : string) : bool := String.prefix p s.

(** [s.substring(n)] *)
Definition substring_from (n : nat) (s : string) : string :=
  String.substring n (String.length s - n) s.

Fixpoint includes (s sub : string) : bool :=
  if String.prefix sub s then true
  else match s with
       | EmptyString => false
       | String _ r => includes r sub
       end.

Definition endsWith (s suffix : string) : bool :=
  let n := String.length s in
  let k := String.length suffix in
  if (k <=? n)%nat then String.eqb (String.substring (n - k) k s) suffix
  else false.

Definition is_digit (c : ascii) : bool :=
  let n := nat_of_ascii c in ((48 <=? n) && (n <=? 57))%nat.

Definition is_lower (c : ascii) : bool :=
  let n := nat_of_ascii c in ((97 <=? n) && (n <=? 122))%nat.

Fixpoint all_chars (p : ascii → bool) (s : string) : bool :=
  match s with
  | EmptyString => true
  | String c r => p c && all_chars p r
  end.

(** [/^\d+$/.test(s)] *)
Definition digits_only (s : string) : bool :=
  Js.truthy s && all_chars is_digit s.

Fixpoint drop_while (p : ascii → bool) (s : string) : string :=
  match s with
  | EmptyString => EmptyString
  | String c r => if p c then drop_while p r else s
  end.

(** [s.match(/^([a-z]+)(\d{1,4})$/)], second group. The letters and the
    digits are disjoint classes, so the split is the only one. *)
Definition match_name_train (s : string) : option string :=
  match s with
  | EmptyString => None
  | String c _ =>
      if is_lower c then
        let d := drop_while is_lower s in
        if digits_only d && (String.length d <=? 4)%nat then Some d else None
      else None
  end.

(** [s.match(/_(\d+)$/)], first group: the digits after an underscore
    that run to the end of the string. *)
Fixpoint match_trailing_number (s : string) : option string :=
  match s with
  | EmptyString => None
  | String c r =>
      if Ascii.eqb c "_"%char && digits_only r then Some r
      else match_trailing_number r
  end.

End JsString.

(** ** JavaScript [Map], iterated in insertion order *)

Definition JsMap (V : Type) : Type := list (string * V).

Module JsMap.

Fixpoint get {V} (k : string) (m : JsMap V) : option V :=
  match m with
  | [] => None
  | (k', v) :: r => if String.eqb k k' then Some v else get k r
  end.

(** [set] keeps the position of a key that is already present. *)
Fixpoint set {V} (k : string) (v : V) (m : JsMap V) : JsMap V :=
  match m with
  | [] => [(k, v)]
  | (k', v') :: r =>
      if String.eqb k k' then (k', v) :: r else (k', v') :: set k v r
  end.

Definition size {V} (m : JsMap V) : nat := length m.

Definition keys {V} (m : JsMap V) : list string := m.*1.

Definition values {V} (m : JsMap V) : list V := m.*2.

End JsMap.

(** Host functions with a fixed meaning on ASCII text. They instantiate the
    variables of the section [Host] on the feeds of the examples. *)

Module Ascii7.

Definition lower_char (c : ascii) : ascii :=
  let n := nat_of_ascii c in
  if ((65 <=? n) && (n <=? 90))%nat then ascii_of_nat (n + 32) else c.

Fixpoint toLowerCase (s : string) : string :=
  match s with
  | EmptyString => EmptyString
  | String c r => String (lower_char c) (toLowerCase r)
  end.

(** Comparison of the code units from left to right, as a number of the
    sign a comparator returns. *)
Definition codeUnitCompare (a b : string) : Z :=
  match String.compare a b with
  | Lt => -1
  | Eq => 0
  | Gt => 1
  end.

End Ascii7.

(** ** The records of the feed *)

(** The parser imports its record types from [src/types/train.ts], whose
    text is missing. Each record below has the fields the parser reads,
    with the names it reads them by; the coordinates of a stop and the shape
    points, which the parser hands on unread, are left out. *)

Module Route.
(** Modelled from the spec: the type [Route] of [src/types/train.ts]: id,
    long display name, optional short name. *)
Record t := mk {
  route_id : string;
  route_long_name : string;
  route_short_name : option string
}.
End Route.

Module Stop.
(** Modelled from the spec: the type [Stop] of [src/types/train.ts]: id and
    display name. *)
Record t := mk {
  stop_id : string;
  stop_name : string
}.
End Stop.

Module Trip.
(** Modelled from the spec: the type [Trip] of [src/types/train.ts]: id,
    owning route id, short display name (the train number), headsign,
    owning service id. A text field that is missing is the empty string:
    the parser tests these fields for truthiness before it uses them. *)
Record t := mk {
  trip_id : string;
  route_id : string;
  trip_short_name : string;
  trip_headsign : string;
  service_id : string
}.
End Trip.

Module StopTime.
(** Modelled from the spec: the type [StopTime] of [src/types/train.ts]:
    stop id, arrival and departure as [HH:MM:SS] text, integer sequence
    number. *)
Record t := mk {
  stop_id : string;
  arrival_time : string;
  departure_time : string;
  stop_sequence : Z
}.
End StopTime.

Module CalendarEntry.
(** Modelled from the spec: the type [CalendarEntry] of
    [src/types/train.ts]: a flag per weekday and the inclusive bounds of
    the date range, as [YYYYMMDD] integers. *)
Record t := mk {
  service_id : string;
  monday : bool;
  tuesday : bool;
  wednesday : bool;
  thursday : bool;
  friday : bool;
  saturday : bool;
  sunday : bool;
  start_date : Z;
  end_date : Z
}.
End CalendarEntry.

Module CalendarDateException.
(** Modelled from the spec: the type [CalendarDateException] of
    [src/types/train.ts]: service id, [YYYYMMDD] date, and the type, 1 for
    added and 2 for removed. *)
Record t := mk {
  service_id : string;
  date : Z;
  exception_type : Z
}.
End CalendarDateException.

Module EnrichedStopTime.
(** Modelled from the spec: the type [EnrichedStopTime] of
    [src/types/train.ts], a stop-time with the name and the code of its
    stop. The parser builds it as [{ ...time, stop_name, stop_code }]: the
    spread copies every property of the stop-time as it is. *)
Record t := mk {
  time : StopTime.t;
  stop_name : string;
  stop_code : string
}.
Definition stop_id (e : t) : string := StopTime.stop_id (time e).
Definition arrival_time (e : t) : string := StopTime.arrival_time (time e).
Definition departure_time (e : t) : string := StopTime.departure_time (time e).
Definition stop_sequence (e : t) : Z := StopTime.stop_sequence (time e).
End EnrichedStopTime.

(** A [Date], seen through the four getters the parser calls. *)
Module Date.
Record t := mk {
  getFullYear : Z;
  getMonth : Z;
  getDate : Z;
  getDay : Z
}.
End Date.

Module SearchResult.
(** Modelled from the spec: the type [SearchResult] of [src/types/train.ts],
    with the type tag and the payloads [search] builds. *)
Inductive kind := station | route | train.
Inductive payload :=
  | of_stop (stop : Stop.t)
  | of_route (route : Route.t)
  | of_trip (trip_id : string)
  | of_trip_stop (trip_id stop_id stop_name : string).
Record t := mk {
  id : string;
  name : string;
  subtitle : string;
  type : kind;
  data : payload
}.
End SearchResult.

(** An element of the array [findTripsWithStops] returns. *)
Module TripMatch.
Record t := mk {
  tripId : string;
  fromStop : EnrichedStopTime.t;
  toStop : EnrichedStopTime.t;
  intermediateStops : list EnrichedStopTime.t
}.
End TripMatch.

(** ** The parser state *)

Record GTFSParser := {
  routes : JsMap Route.t;
  stops : JsMap Stop.t;
  stopTimes : JsMap (list StopTime.t);
  trips : gmap string Trip.t;
  tripsByNumber : gmap string (list Trip.t);
  calendarEntries : gmap string CalendarEntry.t;
  calendarDateExceptions : gmap string (gmap Z Z);
  hasCalendarData : bool;
  isLoaded : bool
}.

(** The state the constructor leaves. *)
Definition new_parser : GTFSParser := {|
  routes := [];
  stops := [];
  stopTimes := [];
  trips := ∅;
  tripsByNumber := ∅;
  calendarEntries := ∅;
  calendarDateExceptions := ∅;
  hasCalendarData := false;
  isLoaded := false
|}.

(** ** [overrideData] *)

Definition add_route (m : JsMap Route.t) (route : Route.t) : JsMap Route.t :=
  if Js.truthy (Route.route_id route)
  then JsMap.set (Route.route_id route) route m
  else m.

Definition add_stop (m : JsMap Stop.t) (stop : Stop.t) : JsMap Stop.t :=
  if Js.truthy (Stop.stop_id stop)
  then JsMap.set (Stop.stop_id stop) stop m
  else m.

Definition add_stop_times (m : JsMap (list StopTime.t))
    (e : string * list StopTime.t) : JsMap (list StopTime.t) :=
  if Js.truthy e.1 then JsMap.set e.1 e.2 m else m.

Definition add_trip (acc : gmap string Trip.t * gmap string (list Trip.t))
    (trip : Trip.t) : gmap string Trip.t * gmap string (list Trip.t) :=
  if Js.truthy (Trip.trip_id trip) then
    let byId := <[Trip.trip_id trip := trip]> acc.1 in
    if Js.truthy (Trip.trip_short_name trip) then
      let existing := default [] (acc.2 !! Trip.trip_short_name trip) in
      (byId, <[Trip.trip_short_name trip := existing ++ [trip]]> acc.2)
    else (byId, acc.2)
  else acc.

Definition add_calendar (m : gmap string CalendarEntry.t)
    (entry : CalendarEntry.t) : gmap string CalendarEntry.t :=
  if Js.truthy (CalendarEntry.service_id entry)
  then <[CalendarEntry.service_id entry := entry]> m
  else m.

Definition add_calendar_date (m : gmap string (gmap Z Z))
    (exception : CalendarDateException.t) : gmap string (gmap Z Z) :=
  if Js.truthy (CalendarDateException.service_id exception) then
    let dateMap := default ∅ (m !! CalendarDateException.service_id exception) in
    <[CalendarDateException.service_id exception :=
        <[CalendarDateException.date exception :=
            CalendarDateException.exception_type exception]> dateMap]> m
  else m.

(** Every field is cleared or assigned, so the state after the call does
    not depend on the state before it. [stopTimes] is the list
    [Object.entries] yields. *)
Definition overrideData
    (routes : list Route.t) (stops : list Stop.t)
    (stopTimes : list (string * list StopTime.t))
    (trips : list Trip.t) (calendar : list CalendarEntry.t)
    (calendarDates : list CalendarDateException.t) : GTFSParser :=
  let routes' := fold_left add_route routes [] in
  let stops' := fold_left add_stop stops [] in
  let indexed := fold_left add_trip trips (∅, ∅) in
  let entries := fold_left add_calendar calendar ∅ in
  let exceptions := fold_left add_calendar_date calendarDates ∅ in
  {| routes := routes';
     stops := stops';
     stopTimes := fold_left add_stop_times stopTimes [];
     trips := indexed.1;
     tripsByNumber := indexed.2;
     calendarEntries := entries;
     calendarDateExceptions := exceptions;
     hasCalendarData :=
       bool_decide (0 < size entries)%nat || bool_decide (0 < size exceptions)%nat;
     isLoaded :=
       bool_decide (0 < JsMap.size routes')%nat && bool_decide (0 < JsMap.size stops')%nat |}.

(** ** Lookups *)

Definition getRouteName (this : GTFSParser) (routeId : string) : string :=
  match JsMap.get routeId (routes this) with
  | Some route => Js.or_else (Route.route_long_name route) "Unknown Route"
  | None => "Unknown Route"
  end.

Definition getStopName (this : GTFSParser) (stopId : string) : string :=
  match JsMap.get stopId (stops this) with
  | Some stop => Js.or_else (Stop.stop_name stop) stopId
  | None => stopId
  end.

Definition getStopCode (this : GTFSParser) (stopId : string) : string := stopId.

Definition getStop (this : GTFSParser) (stopId : string) : option Stop.t :=
  JsMap.get stopId (stops this).

Definition getRoute (this : GTFSParser) (routeId : string) : option Route.t :=
  JsMap.get routeId (routes this).

Definition getTrip (this : GTFSParser) (tripId : string) : option Trip.t :=
  trips this !! tripId.

Definition getTrainNumber (this : GTFSParser) (tripId : string) : string :=
  match trips this !! tripId with
  | Some trip =>
      if Js.truthy (Trip.trip_short_name trip) then Trip.trip_short_name trip
      else default tripId (JsString.match_trailing_number tripId)
  | None => default tripId (JsString.match_trailing_number tripId)
  end.

Definition getRouteIdForTrip (this : GTFSParser) (tripId : string) : option string :=
  Trip.route_id <$> trips this !! tripId.

Definition getTripsByNumber (this : GTFSParser) (trainNumber : string) : list Trip.t :=
  default [] (tripsByNumber this !! trainNumber).

Definition getAllRoutes (this : GTFSParser) : list Route.t := JsMap.values (routes this).

Definition getAllStops (this : GTFSParser) : list Stop.t := JsMap.values (stops this).

Definition getAllTripIds (this : GTFSParser) : list string := JsMap.keys (stopTimes this).

(** ** Stop-times of a trip *)

Definition enrich (this : GTFSParser) (time : StopTime.t) : EnrichedStopTime.t :=
  {| EnrichedStopTime.time := time;
     EnrichedStopTime.stop_name := getStopName this (StopTime.stop_id time);
     EnrichedStopTime.stop_code := StopTime.stop_id time |}.

(** [(a, b) => a.stop_sequence - b.stop_sequence] *)
Definition bySequence (a b : EnrichedStopTime.t) : Z :=
  EnrichedStopTime.stop_sequence a - EnrichedStopTime.stop_sequence b.

Definition getIntermediateStops (this : GTFSParser) (tripId : string)
    : list EnrichedStopTime.t :=
  let times := default [] (JsMap.get tripId (stopTimes this)) in
  Js.sort bySequence (enrich this <$> Js.slice 1 (-1) times).

Definition getStopTimesForTrip (this : GTFSParser) (tripId : string)
    : list EnrichedStopTime.t :=
  let times := default [] (JsMap.get tripId (stopTimes this)) in
  Js.sort bySequence (enrich this <$> times).

(** ** The service calendar *)

Definition dateInt (date : Date.t) : Z :=
  Date.getFullYear date * 10000 + (Date.getMonth date + 1) * 100 + Date.getDate date.

Definition weekday_flag (entry : CalendarEntry.t) (dayOfWeek : Z) : bool :=
  if dayOfWeek =? 0 then CalendarEntry.sunday entry
  else if dayOfWeek =? 1 then CalendarEntry.monday entry
  else if dayOfWeek =? 2 then CalendarEntry.tuesday entry
  else if dayOfWeek =? 3 then CalendarEntry.wednesday entry
  else if dayOfWeek =? 4 then CalendarEntry.thursday entry
  else if dayOfWeek =? 5 then CalendarEntry.friday entry
  else if dayOfWeek =? 6 then CalendarEntry.saturday entry
  else false.

(** The base schedule: the part of [isServiceActiveOnDate] after the
    exceptions. *)
Definition base_schedule (this : GTFSParser) (serviceId : string) (date : Date.t) : bool :=
  match calendarEntries this !! serviceId with
  | None => false
  | Some entry =>
      if (dateInt date <? CalendarEntry.start_date entry)
         || (CalendarEntry.end_date entry <? dateInt date)
      then false
      else weekday_flag entry (Date.getDay date)
  end.

Definition isServiceActiveOnDate (this : GTFSParser) (serviceId : string)
    (date : Date.t) : bool :=
  if negb (hasCalendarData this) then true
  else if negb (Js.truthy serviceId) then true
  else
    match calendarDateExceptions this !! serviceId with
    | Some exceptions =>
        match exceptions !! dateInt date with
        | Some exceptionType =>
            if exceptionType =? 1 then true
            else if exceptionType =? 2 then false
            else base_schedule this serviceId date
        | None => base_schedule this serviceId date
        end
    | None => base_schedule this serviceId date
    end.

(** ** Trips at a stop, trips between two stops *)

(** The guard both scans start with:
    [if (date) { const trip = this.trips.get(tripId);
                 if (trip && !this.isServiceActiveOnDate(trip.service_id, date)) return; }] *)
Definition skipped_for_date (this : GTFSParser) (date : option Date.t)
    (tripId : string) : bool :=
  match date with
  | None => false
  | Some d =>
      match trips this !! tripId with
      | Some trip => negb (isServiceActiveOnDate this (Trip.service_id trip) d)
      | None => false
      end
  end.

Definition stops_at (stopId : string) (t : StopTime.t) : bool :=
  String.eqb (StopTime.stop_id t) stopId.

(** One callback of the [forEach] of [getTripsForStop], on the local array
    [trips] and the local set [seen]. *)
Definition getTripsForStop_visit (this : GTFSParser) (stopId : string)
    (date : option Date.t) (acc : list string * gset string)
    (e : string * list StopTime.t) : list string * gset string :=
  if Js.some (stops_at stopId) e.2 && negb (bool_decide (e.1 ∈ acc.2)) then
    if skipped_for_date this date e.1 then acc
    else (acc.1 ++ [e.1], {[ e.1 ]} ∪ acc.2)
  else acc.

Definition getTripsForStop (this : GTFSParser) (stopId : string)
    (date : option Date.t) : list string :=
  (fold_left (getTripsForStop_visit this stopId date) (stopTimes this) ([], ∅)).1.

(** One callback of the [forEach] of [findTripsWithStops], on the local
    array [results]. Under the test on the two indices both reads
    [times[fromIdx]] and [times[toIdx]] are in range. *)
Definition findTripsWithStops_visit (this : GTFSParser) (fromStopId toStopId : string)
    (date : option Date.t) (results : list TripMatch.t)
    (e : string * list StopTime.t) : list TripMatch.t :=
  if skipped_for_date this date e.1 then results
  else
    let fromIdx := Js.findIndex (stops_at fromStopId) e.2 in
    let toIdx := Js.findIndex (stops_at toStopId) e.2 in
    if negb (fromIdx =? -1) && negb (toIdx =? -1) && (fromIdx <? toIdx) then
      match Js.at_index e.2 fromIdx, Js.at_index e.2 toIdx with
      | Some fromStop, Some toStop =>
          results ++
          [ {| TripMatch.tripId := e.1;
               TripMatch.fromStop := enrich this fromStop;
               TripMatch.toStop := enrich this toStop;
               TripMatch.intermediateStops :=
                 enrich this <$> Js.slice (fromIdx + 1) toIdx e.2 |} ]
      | _, _ => results
      end
    else results.

(** The array [results] when the [forEach] is over. *)
Definition matchingTrips (this : GTFSParser) (fromStopId toStopId : string)
    (date : option Date.t) : list TripMatch.t :=
  fold_left (findTripsWithStops_visit this fromStopId toStopId date) (stopTimes this) [].

Definition fromDeparture (r : TripMatch.t) : string :=
  EnrichedStopTime.departure_time (TripMatch.fromStop r).

(** [trip?.trip_short_name || result.tripId] *)
Definition trainNumberOf (this : GTFSParser) (tripId : string) : string :=
  match trips this !! tripId with
  | Some trip => Js.or_else (Trip.trip_short_name trip) tripId
  | None => tripId
  end.

(** The key of the last filter: the train number, a dash, the departure. *)
Definition dedupKey (this : GTFSParser) (r : TripMatch.t) : string :=
  trainNumberOf this (TripMatch.tripId r) +:+ "-" +:+ fromDeparture r.

Section Host.

(** [String.prototype.toLowerCase] and [String.prototype.localeCompare] of
    the host. *)
Variable toLowerCase : string → string.
Variable localeCompare : string → string → Z.

Definition byDeparture (a b : TripMatch.t) : Z :=
  localeCompare (fromDeparture a) (fromDeparture b).

Definition findTripsWithStops (this : GTFSParser) (fromStopId toStopId : string)
    (date : option Date.t) : list TripMatch.t :=
  let results := matchingTrips this fromStopId toStopId date in
  Js.filter_unseen (dedupKey this) ∅ (Js.sort byDeparture results).

(** ** Search *)

(** The train number a query asks for, or the empty string. *)
Definition trainNumberQuery (query : string) : string :=
  let queryLower := toLowerCase query in
  if JsString.startsWith queryLower "amt" then JsString.substring_from 3 queryLower
  else if JsString.digits_only query then query
  else default EmptyString (JsString.match_name_train queryLower).

Definition quoted (s : string) : string :=
  String (ascii_of_nat 34) s +:+ String (ascii_of_nat 34) EmptyString.

(** The callback of [this.stops.forEach] in [search]. *)
Definition search_stop (query : string) (results : list SearchResult.t)
    (stop : Stop.t) : list SearchResult.t :=
  let queryLower := toLowerCase query in
  if JsString.includes (toLowerCase (Stop.stop_name stop)) queryLower then
    results ++
    [ {| SearchResult.id := "stop-name-" +:+ Stop.stop_id stop;
         SearchResult.name := Stop.stop_name stop;
         SearchResult.subtitle := "Name contains " +:+ quoted query;
         SearchResult.type := SearchResult.station;
         SearchResult.data := SearchResult.of_stop stop |} ]
  else if JsString.includes (toLowerCase (Stop.stop_id stop)) queryLower then
    results ++
    [ {| SearchResult.id := "stop-id-" +:+ Stop.stop_id stop;
         SearchResult.name := Stop.stop_name stop;
         SearchResult.subtitle := "Station matches " +:+ quoted (Stop.stop_id stop);
         SearchResult.type := SearchResult.station;
         SearchResult.data := SearchResult.of_stop stop |} ]
  else results.

(** The callback of [this.routes.forEach] in [search]. *)
Definition search_route (query : string) (results : list SearchResult.t)
    (route : Route.t) : list SearchResult.t :=
  let queryLower := toLowerCase query in
  if JsString.includes (toLowerCase (Route.route_long_name route)) queryLower
     || match Route.route_short_name route with
        | Some short => JsString.includes (toLowerCase short) queryLower
        | None => false
        end
     || JsString.includes (toLowerCase (Route.route_id route)) queryLower
  then
    results ++
    [ {| SearchResult.id := "route-" +:+ Route.route_id route;
         SearchResult.name := Route.route_long_name route;
         SearchResult.subtitle := "AMT" +:+ Route.route_id route;
         SearchResult.type := SearchResult.route;
         SearchResult.data := SearchResult.of_route route |} ]
  else results.

(** The body of the loop over the trips that carry the train number. *)
Definition search_numbered_trip (this : GTFSParser) (results : list SearchResult.t)
    (trip : Trip.t) : list SearchResult.t :=
  let routeName := getRouteName this (Trip.route_id trip) in
  let displayName :=
    if negb (String.eqb routeName "Unknown Route")
    then routeName +:+ " " +:+ Trip.trip_short_name trip
    else "Train " +:+ Trip.trip_short_name trip in
  results ++
  [ {| SearchResult.id := "train-" +:+ Trip.trip_id trip;
       SearchResult.name := displayName;
       SearchResult.subtitle := Js.or_else (Trip.trip_headsign trip) EmptyString;
       SearchResult.type := SearchResult.train;
       SearchResult.data := SearchResult.of_trip (Trip.trip_id trip) |} ].

Definition search_by_number (this : GTFSParser) (query : string)
    (results : list SearchResult.t) : list SearchResult.t :=
  if Js.truthy (trainNumberQuery query) then
    let matchingTrips := default [] (tripsByNumber this !! trainNumberQuery query) in
    fold_left (search_numbered_trip this) (Js.slice 0 5 matchingTrips) results
  else results.

(** The callback of [uniqueStops.forEach]. *)
Definition search_trip_stop (this : GTFSParser) (query tripId displayName : string)
    (results : list SearchResult.t) (stopId : string) : list SearchResult.t :=
  match JsMap.get stopId (stops this) with
  | Some stop =>
      if JsString.includes (toLowerCase (Stop.stop_name stop)) (toLowerCase query) then
        results ++
        [ {| SearchResult.id := "trip-stop-" +:+ tripId +:+ "-" +:+ stopId;
             SearchResult.name := displayName;
             SearchResult.subtitle := "Stops at " +:+ quoted (Stop.stop_name stop);
             SearchResult.type := SearchResult.train;
             SearchResult.data :=
               SearchResult.of_trip_stop tripId stopId (Stop.stop_name stop) |} ]
      else results
  | None => results
  end.

(** The callback of [this.stopTimes.forEach] in [search]. *)
Definition search_trip (this : GTFSParser) (query : string)
    (results : list SearchResult.t) (e : string * list StopTime.t)
    : list SearchResult.t :=
  let tripId := e.1 in
  let trainNumber := getTrainNumber this tripId in
  let trip := trips this !! tripId in
  let routeName :=
    match trip with
    | Some t =>
        if Js.truthy (Trip.route_id t) then getRouteName this (Trip.route_id t)
        else EmptyString
    | None => EmptyString
    end in
  let displayName :=
    if Js.truthy routeName && negb (String.eqb routeName "Unknown Route")
    then routeName +:+ " " +:+ trainNumber
    else "Train " +:+ trainNumber in
  let tripIdLower := toLowerCase tripId in
  let found :=
    Js.find (fun r => String.eqb (SearchResult.id r) ("train-" +:+ tripId)) results in
  let results' :=
    if Js.truthy (trainNumberQuery query)
       && JsString.endsWith tripIdLower (trainNumberQuery query)
       && negb (bool_decide (is_Some found))
    then
      results ++
      [ {| SearchResult.id := "tripid-" +:+ tripId;
           SearchResult.name := displayName;
           SearchResult.subtitle :=
             match trip with
             | Some t => Js.or_else (Trip.trip_headsign t) EmptyString
             | None => EmptyString
             end;
           SearchResult.type := SearchResult.train;
           SearchResult.data := SearchResult.of_trip tripId |} ]
    else results in
  let uniqueStops := Js.filter_unseen id ∅ (StopTime.stop_id <$> e.2) in
  fold_left (search_trip_stop this query tripId displayName) uniqueStops results'.

(** The array [results] before the last filter. *)
Definition search_results (this : GTFSParser) (query : string) : list SearchResult.t :=
  let results := fold_left (search_stop query) (JsMap.values (stops this)) [] in
  let results := fold_left (search_route query) (JsMap.values (routes this)) results in
  let results := search_by_number this query results in
  fold_left (search_trip this query) (stopTimes this) results.

Definition search (this : GTFSParser) (query : string) : list SearchResult.t :=
  Js.slice 0 20 (Js.filter_unseen SearchResult.id ∅ (search_results this query)).

Definition searchStations (this : GTFSParser) (query : string) : list Stop.t :=
  let queryLower := toLowerCase query in
  let visit (results : list Stop.t) (stop : Stop.t) :=
    if JsString.includes (toLowerCase (Stop.stop_name stop)) queryLower
       || JsString.includes (toLowerCase (Stop.stop_id stop)) queryLower
    then results ++ [stop] else results in
  Js.slice 0 10 (fold_left visit (JsMap.values (stops this)) []).

(** A query that nothing in the store answers. *)
Record nothing_matches (this : GTFSParser) (query : string) : Prop := {
  no_stop : ∀ stop, stop ∈ JsMap.values (stops this) →
    JsString.includes (toLowerCase (Stop.stop_name stop)) (toLowerCase query) = false
    ∧ JsString.includes (toLowerCase (Stop.stop_id stop)) (toLowerCase query) = false;
  no_route : ∀ route, route ∈ JsMap.values (routes this) →
    JsString.includes (toLowerCase (Route.route_long_name route)) (toLowerCase query)
      = false
    ∧ (∀ short, Route.route_short_name route = Some short →
         JsString.includes (toLowerCase short) (toLowerCase query) = false)
    ∧ JsString.includes (toLowerCase (Route.route_id route)) (toLowerCase query) = false;
  no_train : Js.truthy (trainNumberQuery query) = true →
    tripsByNumber this !! trainNumberQuery query = None
    ∧ ∀ e, e ∈ stopTimes this →
        JsString.endsWith (toLowerCase e.1) (trainNumberQuery query) = false
}.

(** A stop-time that a retrieval operation returns for a trip. *)
Inductive retrieved (this : GTFSParser) (tripId : string) : EnrichedStopTime.t → Prop :=
  | retrieved_stop_time e :
      e ∈ getStopTimesForTrip this tripId → retrieved this tripId e
  | retrieved_intermediate e :
      e ∈ getIntermediateStops this tripId → retrieved this tripId e
  | retrieved_from r fromStopId toStopId date :
      r ∈ findTripsWithStops this fromStopId toStopId date →
      TripMatch.tripId r = tripId →
      retrieved this tripId (TripMatch.fromStop r)
  | retrieved_to r fromStopId toStopId date :
      r ∈ findTripsWithStops this fromStopId toStopId date →
      TripMatch.tripId r = tripId →
      retrieved this tripId (TripMatch.toStop r)
  | retrieved_between r fromStopId toStopId date e :
      r ∈ findTripsWithStops this fromStopId toStopId date →
      TripMatch.tripId r = tripId →
      e ∈ TripMatch.intermediateStops r →
      retrieved this tripId e.

End Host.

(** The states a parser can be in: the parser starts empty and
    [overrideData] is the one method that assigns its fields. *)
Inductive loaded : GTFSParser → Prop :=
  | loaded_new : loaded new_parser
  | loaded_override routes stops stopTimes trips calendar calendarDates :
      loaded (overrideData routes stops stopTimes trips calendar calendarDates).

(** The list stored for a trip, [this.stopTimes.get(tripId) || []]. *)
Definition storedTimes (this : GTFSParser) (tripId : string) : list StopTime.t :=
  default [] (JsMap.get tripId (stopTimes this)).

(** A stop-time stored under a trip id. *)
Definition stored (this : GTFSParser) (tripId : string) (t : StopTime.t) : Prop :=
  ∃ times, (tripId, times) ∈ stopTimes this ∧ t ∈ times.

(** The short display name of a trip, when the trip has a record. *)
Definition shortName (this : GTFSParser) (tripId : string) : option string :=
  Trip.trip_short_name <$> trips this !! tripId.

Definition inSequenceOrder (a b : StopTime.t) : Prop :=
  StopTime.stop_sequence a < StopTime.stop_sequence b.

(** The order of the code units, which [localeCompare] is compared with. *)
Definition lexicographic (a b : string) : Prop := Ascii7.codeUnitCompare a b ≤ 0.

(** ** Predicates of the statements *)

(** The trips a load files under a train number. *)
Definition numbered (trainNumber : string) (t : Trip.t) : bool :=
  Js.truthy (Trip.trip_id t) && Js.truthy (Trip.trip_short_name t)
  && String.eqb (Trip.trip_short_name t) trainNumber.

(** The trip passes the date test of the scans. *)
Definition passes_date (this : GTFSParser) (date : option Date.t) (tripId : string) : bool :=
  negb (skipped_for_date this date tripId).

Section Answers.
Variable toLowerCase : string → string.

(** The stop a station result carries. *)
Definition stop_of (r : SearchResult.t) : option Stop.t :=
  match SearchResult.data r with
  | SearchResult.of_stop stop => Some stop
  | _ => None
  end.

(** The test of [searchStations] on a stop. *)
Definition station_matches (query : string) (stop : Stop.t) : bool :=
  JsString.includes (toLowerCase (Stop.stop_name stop)) (toLowerCase query)
  || JsString.includes (toLowerCase (Stop.stop_id stop)) (toLowerCase query).

(** What a result of [search] says about the store and the query. *)
Definition answers (this : GTFSParser) (query : string) (r : SearchResult.t) : Prop :=
  match SearchResult.data r with
  | SearchResult.of_stop stop =>
      SearchResult.type r = SearchResult.station
      ∧ stop ∈ getAllStops this
      ∧ SearchResult.name r = Stop.stop_name stop
      ∧ station_matches query stop = true
  | SearchResult.of_route route =>
      SearchResult.type r = SearchResult.route
      ∧ route ∈ getAllRoutes this
      ∧ SearchResult.name r = Route.route_long_name route
      ∧ (JsString.includes (toLowerCase (Route.route_long_name route))
           (toLowerCase query) = true
         ∨ (∃ short, Route.route_short_name route = Some short
                     ∧ JsString.includes (toLowerCase short) (toLowerCase query) = true)
         ∨ JsString.includes (toLowerCase (Route.route_id route))
             (toLowerCase query) = true)
  | SearchResult.of_trip tripId =>
      SearchResult.type r = SearchResult.train
      ∧ trainNumberQuery toLowerCase query ≠ EmptyString
      ∧ ((∃ trip, trip ∈ getTripsByNumber this (trainNumberQuery toLowerCase query)
                  ∧ Trip.trip_id trip = tripId)
         ∨ (tripId ∈ getAllTripIds this
            ∧ JsString.endsWith (toLowerCase tripId) (trainNumberQuery toLowerCase query)
              = true))
  | SearchResult.of_trip_stop tripId stopId stopName =>
      SearchResult.type r = SearchResult.train
      ∧ ∃ stop t, getStop this stopId = Some stop
                  ∧ Stop.stop_name stop = stopName
                  ∧ JsString.includes (toLowerCase stopName) (toLowerCase query) = true
                  ∧ stored this tripId t
                  ∧ StopTime.stop_id t = stopId
  end.

End Answers.

(** ** Feeds of the examples *)

Module Fixture.

Definition at_stop (stop time : string) (seq : Z) : StopTime.t :=
  StopTime.mk stop time time seq.

Definition cardinal : Route.t := Route.mk "R1" "Cardinal" None.
Definition union_station : Stop.t := Stop.mk "A" "Union Station".
Definition central_station : Stop.t := Stop.mk "B" "Central Station".

Definition trip (id short service : string) : Trip.t :=
  Trip.mk id "R1" short "Chicago" service.

(** The scenario of the specification: one trip from A to B. *)
Definition feed : GTFSParser :=
  overrideData [cardinal] [union_station; central_station]
    [("T1", [at_stop "A" "08:00:00" 1; at_stop "B" "09:30:00" 2])]
    [trip "T1" "1234" "S1"] [] [].

(** A trip whose stop-times are not stored in the order of their sequence
    numbers, and whose last stop is past midnight. *)
Definition reversed : GTFSParser :=
  overrideData [cardinal] [union_station; central_station]
    [("T1", [at_stop "B" "09:30:00" 2; at_stop "A" "08:00:00" 1;
             at_stop "C" "25:15:00" 3])]
    [trip "T1" "1234" "S1"] [] [].

Definition no_day : string → CalendarEntry.t := fun service =>
  CalendarEntry.mk service false false false false false false false 20240101 20241231.

Definition every_day : string → CalendarEntry.t := fun service =>
  CalendarEntry.mk service true true true true true true true 20240101 20241231.

(** Monday 15 January 2024. *)
Definition monday : Date.t := Date.mk 2024 0 15 1.

(** Service S1 never runs but is added on the Monday; service S2 runs
    every day but is removed on the Monday; trip T9 has stop-times and no
    trip record. *)
Definition with_calendar : GTFSParser :=
  overrideData [cardinal] [union_station; central_station]
    [("T1", [at_stop "A" "08:00:00" 1; at_stop "B" "09:30:00" 2]);
     ("T2", [at_stop "A" "10:00:00" 1; at_stop "B" "11:30:00" 2]);
     ("T9", [at_stop "A" "12:00:00" 1; at_stop "B" "13:30:00" 2])]
    [trip "T1" "1234" "S1"; trip "T2" "5678" "S2"]
    [no_day "S1"; every_day "S2"]
    [CalendarDateException.mk "S1" 20240115 1;
     CalendarDateException.mk "S2" 20240115 2].

(** Two trips with the same train number and the same departure from A,
    and two trips without a train number that leave A together. *)
Definition same_run : GTFSParser :=
  overrideData [cardinal] [union_station; central_station]
    [("T1", [at_stop "A" "08:00:00" 1; at_stop "B" "09:30:00" 2]);
     ("T2", [at_stop "A" "08:00:00" 1; at_stop "B" "09:45:00" 2])]
    [trip "T1" "1234" "S1"; trip "T2" "1234" "S2"] [] [].

Definition unnamed_runs : GTFSParser :=
  overrideData [cardinal] [union_station; central_station]
    [("T1", [at_stop "A" "08:00:00" 1; at_stop "B" "09:30:00" 2]);
     ("T2", [at_stop "A" "08:00:00" 1; at_stop "B" "09:45:00" 2])]
    [trip "T1" EmptyString "S1"; trip "T2" EmptyString "S2"] [] [].

End Fixture.

(** * Properties *)

(** ** Arrays *)

Section SortFacts.
Context {A : Type} (cmp : A → A → Z).

Lemma insert_sorted_perm (x : A) (l : list A) :
  Js.insert_sorted cmp x l ≡ₚ x :: l.
Proof.
  induction l as [|y r IH]; simpl; [done|].
  destruct (0 <? cmp x y); [|done].
  rewrite IH. apply Permutation_swap.
Qed.

Lemma sort_perm (l : list A) : Js.sort cmp l ≡ₚ l.
Proof.
  induction l as [|x r IH]; simpl; [done|].
  by rewrite insert_sorted_perm, IH.
Qed.

Lemma sort_length (l : list A) : length (Js.sort cmp l) = length l.
Proof. by rewrite sort_perm. Qed.

Lemma sort_elem_of (x : A) (l : list A) : x ∈ Js.sort cmp l ↔ x ∈ l.
Proof. by rewrite sort_perm. Qed.

(** A list that is in order already is left as it is: the sort is stable. *)
Lemma sort_sorted_id (l : list A) :
  StronglySorted (Js.before cmp) l → Js.sort cmp l = l.
Proof.
  induction 1 as [|x r Hr IH Hx]; simpl; [done|].
  rewrite IH. destruct r as [|y r']; simpl; [done|].
  apply Forall_cons in Hx as [Hxy _]. unfold Js.before in Hxy.
  destruct (Z.ltb_spec 0 (cmp x y)); [lia|done].
Qed.

Section Ordered.
Hypothesis before_total : ∀ a b, Js.before cmp a b ∨ Js.before cmp b a.
Hypothesis before_trans : ∀ a b c, Js.before cmp a b → Js.before cmp b c → Js.before cmp a c.

Lemma insert_sorted_sorted (x : A) (l : list A) :
  StronglySorted (Js.before cmp) l → StronglySorted (Js.before cmp) (Js.insert_sorted cmp x l).
Proof.
  induction 1 as [|y r Hr IH Hy]; simpl.
  - repeat constructor.
  - destruct (Z.ltb_spec 0 (cmp x y)) as [Hgt|Hle].
    + constructor; [done|].
      rewrite insert_sorted_perm. constructor; [|done].
      destruct (before_total y x) as [?|Hxy]; [done|]. unfold Js.before in Hxy. lia.
    + constructor; [by constructor|].
      constructor; [done|].
      eapply Forall_impl; [exact Hy|]. intros z Hz. by eapply before_trans.
Qed.

Lemma sort_sorted (l : list A) : StronglySorted (Js.before cmp) (Js.sort cmp l).
Proof.
  induction l as [|x r IH]; simpl; [constructor|].
  by apply insert_sorted_sorted.
Qed.

End Ordered.
End SortFacts.

(** The sort reads the comparator on the elements of the array only. *)
Lemma insert_sorted_ext {A} (c1 c2 : A → A → Z) (x : A) (l : list A) :
  (∀ y, y ∈ l → (0 <? c1 x y) = (0 <? c2 x y)) →
  Js.insert_sorted c1 x l = Js.insert_sorted c2 x l.
Proof.
  induction l as [|y r IH]; intros H; simpl; [done|].
  rewrite <- (H y) by left.
  destruct (0 <? c1 x y); [|done].
  f_equal. apply IH. intros z Hz. apply H. by right.
Qed.

Lemma sort_ext {A} (c1 c2 : A → A → Z) (l : list A) :
  (∀ x y, x ∈ l → y ∈ l → (0 <? c1 x y) = (0 <? c2 x y)) →
  Js.sort c1 l = Js.sort c2 l.
Proof.
  induction l as [|x r IH]; intros H; simpl; [done|].
  rewrite IH by (intros; apply H; rewrite elem_of_cons; auto).
  apply insert_sorted_ext. intros y Hy.
  rewrite sort_elem_of in Hy. apply H; rewrite elem_of_cons; auto.
Qed.

Lemma sort_fmap {A B} (f : A → B) (cmp : B → B → Z) (l : list A) :
  Js.sort cmp (f <$> l) = f <$> Js.sort (λ a b, cmp (f a) (f b)) l.
Proof.
  induction l as [|x r IH]; [done|].
  rewrite fmap_cons. cbn [Js.sort]. rewrite IH.
  generalize (Js.sort (λ a b, cmp (f a) (f b)) r). intros s.
  induction s as [|y s IHs]; [done|].
  rewrite fmap_cons. cbn [Js.insert_sorted].
  destruct (0 <? cmp (f x) (f y)); [|done].
  by rewrite fmap_cons, IHs.
Qed.

Section FilterUnseenFacts.
Context {A : Type} (key : A → string).

Lemma filter_unseen_sublist (seen : gset string) (l : list A) :
  Js.filter_unseen key seen l `sublist_of` l.
Proof.
  revert seen. induction l as [|x r IH]; intros seen; simpl; [done|].
  case_bool_decide; [by apply sublist_cons|by apply sublist_skip].
Qed.

Lemma filter_unseen_fresh (seen : gset string) (l : list A) (x : A) :
  x ∈ Js.filter_unseen key seen l → key x ∉ seen.
Proof.
  revert seen. induction l as [|y r IH]; intros seen; simpl; [by intros ?%elem_of_nil|].
  case_bool_decide as Hy.
  - apply IH.
  - intros [->|Hx%IH]%elem_of_cons; [done|]. set_solver.
Qed.

Lemma filter_unseen_NoDup (seen : gset string) (l : list A) :
  NoDup (key <$> Js.filter_unseen key seen l).
Proof.
  revert seen. induction l as [|x r IH]; intros seen; simpl; [constructor|].
  case_bool_decide; [apply IH|].
  rewrite fmap_cons. constructor; [|apply IH].
  intros (y & Hk & Hy%filter_unseen_fresh)%list_elem_of_fmap.
  rewrite <- Hk in Hy. set_solver.
Qed.

(** What the filter does to an element depends on the keys met before. *)
Lemma filter_unseen_app (seen : gset string) (l1 l2 : list A) :
  Js.filter_unseen key seen (l1 ++ l2) =
  Js.filter_unseen key seen l1 ++
  Js.filter_unseen key (list_to_set (key <$> l1) ∪ seen) l2.
Proof.
  revert seen. induction l1 as [|x r IH]; intros seen; simpl.
  - by rewrite (left_id_L ∅ (∪)).
  - case_bool_decide as Hx; rewrite IH; simpl.
    + do 2 f_equal. apply set_eq. intros k.
      rewrite !elem_of_union, elem_of_singleton. intuition (subst; auto).
    + do 3 f_equal. apply set_eq. intros k.
      rewrite !elem_of_union, elem_of_singleton. tauto.
Qed.

Lemma filter_unseen_first (seen : gset string) (pre post : list A) (x : A) :
  key x ∉ seen → key x ∉ key <$> pre →
  x ∈ Js.filter_unseen key seen (pre ++ x :: post).
Proof.
  intros Hseen Hpre. rewrite filter_unseen_app. apply elem_of_app. right.
  simpl. rewrite bool_decide_eq_false_2; [left|].
  rewrite elem_of_union, elem_of_list_to_set. tauto.
Qed.

Lemma filter_unseen_kept (seen : gset string) (l : list A) (x : A) :
  x ∈ Js.filter_unseen key seen l →
  ∃ pre post, l = pre ++ x :: post ∧ (key x ∉ seen) ∧ (key x ∉ key <$> pre).
Proof.
  revert seen. induction l as [|y r IH]; intros seen; simpl; [by intros ?%elem_of_nil|].
  case_bool_decide as Hy.
  - intros (pre & post & -> & Hs & Hp)%IH.
    exists (y :: pre), post. split_and!; [done..|].
    rewrite fmap_cons, not_elem_of_cons. split; [congruence|done].
  - intros [->|(pre & post & -> & Hs & Hp)%IH]%elem_of_cons.
    + exists [], r. split_and!; [done..|]. simpl. apply not_elem_of_nil.
    + exists (y :: pre), post. split_and!; [done|set_solver|].
      rewrite fmap_cons, not_elem_of_cons. split; [|done]. set_solver.
Qed.

(** No key is lost: the first element that carries a key stays. *)
Lemma filter_unseen_represented (seen : gset string) (l : list A) (x : A) :
  x ∈ l → key x ∉ seen →
  ∃ y, y ∈ Js.filter_unseen key seen l ∧ key y = key x.
Proof.
  revert seen. induction l as [|z r IH]; intros seen; simpl; [by intros ?%elem_of_nil|].
  intros [->|Hx]%elem_of_cons Hseen.
  - rewrite bool_decide_eq_false_2 by done. exists z. split; [left|done].
  - case_bool_decide as Hz; [by apply IH|].
    destruct (decide (key x = key z)) as [Heq|Hne].
    + exists z. split; [left|done].
    + destruct (IH ({[key z]} ∪ seen) Hx) as (y & Hy & Hk).
      { rewrite elem_of_union, elem_of_singleton. tauto. }
      exists y. split; [by right|done].
Qed.

Lemma filter_unseen_elem_of (seen : gset string) (l : list A) (x : A) :
  x ∈ Js.filter_unseen key seen l → x ∈ l.
Proof.
  intros (pre & post & -> & _)%filter_unseen_kept.
  apply elem_of_app. right. left.
Qed.

Lemma filter_unseen_StronglySorted (R : relation A) (seen : gset string) (l : list A) :
  StronglySorted R l → StronglySorted R (Js.filter_unseen key seen l).
Proof.
  intros Hl. revert seen.
  induction Hl as [|x r Hr IH Hx]; intros seen; simpl; [constructor|].
  case_bool_decide; [apply IH|].
  constructor; [apply IH|].
  rewrite Forall_forall in Hx |- *.
  intros y Hy%filter_unseen_elem_of. by apply Hx.
Qed.

End FilterUnseenFacts.

Section SliceFacts.
Context {A : Type}.
Implicit Types l : list A.

Lemma slice_sublist (first last : Z) l : Js.slice first last l `sublist_of` l.
Proof.
  unfold Js.slice. etrans; [apply sublist_take|apply sublist_drop].
Qed.

Lemma slice_elem_of (first last : Z) l (x : A) : x ∈ Js.slice first last l → x ∈ l.
Proof. intros Hx. eapply elem_of_sublist; [exact Hx|apply slice_sublist]. Qed.

(** [a.slice(0, n)] is the first [n] elements. *)
Lemma slice_prefix (n : nat) l : Js.slice 0 (Z.of_nat n) l = take n l.
Proof.
  unfold Js.slice, Js.rel_index. simpl.
  destruct (Z.ltb_spec (Z.of_nat n) 0); [lia|].
  rewrite (Z.min_l 0) by lia. rewrite Z.sub_0_r. simpl.
  destruct (decide (n ≤ length l)%nat).
  - rewrite Z.min_l by lia. by rewrite Nat2Z.id.
  - rewrite Z.min_r by lia. rewrite Nat2Z.id.
    rewrite (take_ge l n) by lia. by apply take_ge.
Qed.

(** [a.slice(1, -1)] drops the first and the last element. *)
Lemma slice_inner l : Js.slice 1 (-1) l = take (length l - 2) (drop 1 l).
Proof.
  destruct l as [|x r]; [done|].
  unfold Js.slice, Js.rel_index.
  change (1 <? 0) with false. change (-1 <? 0) with true. cbv iota.
  rewrite length_cons.
  rewrite Z.min_l, Z.max_l by lia.
  do 2 f_equal. lia.
Qed.

Lemma slice_inner_length l : length (Js.slice 1 (-1) l) = (length l - 2)%nat.
Proof. rewrite slice_inner, length_take, length_drop. lia. Qed.

End SliceFacts.

Section FindIndexFacts.
Context {A : Type} (p : A → bool).

Lemma findIndex_from_found (l : list A) (i k : Z) :
  Js.findIndex_from p l i = k → 0 ≤ i → k ≠ -1 →
  i ≤ k ∧ ∃ x, l !! Z.to_nat (k - i) = Some x ∧ p x = true.
Proof.
  revert i. induction l as [|x r IH]; intros i; simpl; [lia|].
  destruct (p x) eqn:Hp.
  - intros <- Hi _. split; [lia|]. exists x. by rewrite Z.sub_diag.
  - intros Hk Hi Hne. destruct (IH _ Hk) as (Hle & y & Hy & Hpy); [lia|done|].
    split; [lia|]. exists y. split; [|done].
    replace (Z.to_nat (k - i)) with (S (Z.to_nat (k - (i + 1)))) by lia. done.
Qed.

Lemma findIndex_found (l : list A) (k : Z) :
  Js.findIndex p l = k → k ≠ -1 →
  0 ≤ k ∧ ∃ x, Js.at_index l k = Some x ∧ l !! Z.to_nat k = Some x ∧ p x = true.
Proof.
  intros Hk Hne. destruct (findIndex_from_found l 0 k Hk) as (Hle & x & Hx & Hp); [lia|done|].
  rewrite Z.sub_0_r in Hx. split; [done|]. exists x. unfold Js.at_index.
  destruct (Z.ltb_spec k 0); [lia|done].
Qed.

Lemma findIndex_from_none (l : list A) (i : Z) :
  0 ≤ i → Js.findIndex_from p l i = -1 ↔ Forall (λ x, p x = false) l.
Proof.
  revert i. induction l as [|x r IH]; intros i Hi; simpl.
  - split; [constructor|done].
  - rewrite Forall_cons. destruct (p x) eqn:Hp.
    + split; [lia|]. by intros [? _].
    + rewrite IH by lia. tauto.
Qed.

End FindIndexFacts.

Section JsMapFacts.
Context {V : Type}.
Implicit Types m : JsMap V.

Lemma get_elem_of (k : string) (v : V) m : JsMap.get k m = Some v → (k, v) ∈ m.
Proof.
  induction m as [|[k' v'] r IH]; simpl; [done|].
  destruct (String.eqb_spec k k') as [->|Hne].
  - intros [= ->]. left.
  - intros Hr. right. by apply IH.
Qed.

Lemma get_None (k : string) m : JsMap.get k m = None ↔ k ∉ JsMap.keys m.
Proof.
  unfold JsMap.keys. induction m as [|[k' v'] r IH]; simpl.
  - split; [intros _; apply not_elem_of_nil|done].
  - rewrite not_elem_of_cons. destruct (String.eqb_spec k k') as [->|Hne].
    + split; [done|]. by intros [? _].
    + rewrite IH. tauto.
Qed.

Lemma elem_of_get (k : string) (v : V) m :
  NoDup (JsMap.keys m) → (k, v) ∈ m → JsMap.get k m = Some v.
Proof.
  unfold JsMap.keys. induction m as [|[k' v'] r IH]; simpl.
  - by intros _ ?%elem_of_nil.
  - intros [Hk Hr]%NoDup_cons [[= -> ->]|Hin]%elem_of_cons.
    + by rewrite String.eqb_refl.
    + destruct (String.eqb_spec k k') as [->|Hne]; [|by apply IH].
      destruct Hk. apply list_elem_of_fmap. by exists (k', v).
Qed.

Lemma keys_cons (k : string) (v : V) m : JsMap.keys ((k, v) :: m) = k :: JsMap.keys m.
Proof. done. Qed.

Lemma keys_set (k : string) (v : V) m :
  JsMap.keys (JsMap.set k v m) =
  if bool_decide (k ∈ JsMap.keys m) then JsMap.keys m else JsMap.keys m ++ [k].
Proof.
  induction m as [|[k' v'] r IH]; [done|].
  cbn [JsMap.set]. rewrite keys_cons.
  destruct (String.eqb_spec k k') as [->|Hne].
  - rewrite keys_cons, bool_decide_eq_true_2; [done|left].
  - rewrite keys_cons, IH. case_bool_decide as Hin.
    + rewrite bool_decide_eq_true_2; [done|by right].
    + rewrite bool_decide_eq_false_2; [done|]. by rewrite not_elem_of_cons.
Qed.

Lemma set_NoDup (k : string) (v : V) m :
  NoDup (JsMap.keys m) → NoDup (JsMap.keys (JsMap.set k v m)).
Proof.
  intros Hm. rewrite keys_set. case_bool_decide; [done|].
  apply NoDup_app. split_and!; [done| |apply NoDup_singleton].
  intros x Hx ->%list_elem_of_singleton. done.
Qed.

End JsMapFacts.

(** A [forEach] whose callback only pushes builds the concatenation of what
    each callback pushes. *)
Lemma fold_left_push {A B} (visit : list B → A → list B) (l : list A) (acc : list B) :
  (∀ acc e, visit acc e = acc ++ visit [] e) →
  fold_left visit l acc = acc ++ (l ≫= visit []).
Proof.
  intros Hpush. revert acc. induction l as [|e r IH]; intros acc; simpl.
  - by rewrite app_nil_r.
  - rewrite IH, Hpush. by rewrite <- app_assoc.
Qed.

(** ** The states of the parser *)

Lemma new_parser_override : new_parser = overrideData [] [] [] [] [] [].
Proof. reflexivity. Qed.

Lemma loaded_inv (this : GTFSParser) :
  loaded this →
  ∃ routes stops stopTimes trips calendar calendarDates,
    this = overrideData routes stops stopTimes trips calendar calendarDates.
Proof.
  intros [|rs ss sts ts c cd].
  - exists [], [], [], [], [], []. apply new_parser_override.
  - by exists rs, ss, sts, ts, c, cd.
Qed.

Lemma loaded_stopTimes_NoDup (this : GTFSParser) :
  loaded this → NoDup (JsMap.keys (stopTimes this)).
Proof.
  intros (rs & ss & sts & ts & c & cd & ->)%loaded_inv. simpl.
  assert (∀ m : JsMap (list StopTime.t),
    NoDup (JsMap.keys m) → NoDup (JsMap.keys (fold_left add_stop_times sts m))) as Hfold.
  { induction sts as [|e r IH]; intros m Hm; simpl; [done|].
    apply IH. unfold add_stop_times. destruct (Js.truthy e.1); [|done].
    by apply set_NoDup. }
  apply Hfold. constructor.
Qed.

Lemma storedTimes_elem_of (this : GTFSParser) (tripId : string) (times : list StopTime.t) :
  loaded this → (tripId, times) ∈ stopTimes this → storedTimes this tripId = times.
Proof.
  intros Hl Hin. unfold storedTimes.
  by rewrite (elem_of_get _ _ _ (loaded_stopTimes_NoDup _ Hl) Hin).
Qed.

(** ** Stop-times of a trip *)

Lemma bySequence_total (a b : EnrichedStopTime.t) :
  Js.before bySequence a b ∨ Js.before bySequence b a.
Proof. unfold Js.before, bySequence. lia. Qed.

Lemma bySequence_trans (a b c : EnrichedStopTime.t) :
  Js.before bySequence a b → Js.before bySequence b c → Js.before bySequence a c.
Proof. unfold Js.before, bySequence. lia. Qed.

Lemma StronglySorted_strict {A} (f : A → Z) (l : list A) :
  StronglySorted (λ a b, f a - f b ≤ 0) l → NoDup (f <$> l) →
  StronglySorted (λ a b, f a < f b) l.
Proof.
  induction 1 as [|x r Hr IH Hx]; [constructor|].
  rewrite fmap_cons. intros [Hnot Hnd]%NoDup_cons.
  constructor; [by apply IH|].
  rewrite Forall_forall in Hx |- *. intros y Hy.
  assert (f x ≠ f y); [|specialize (Hx y Hy); lia].
  intros Heq. apply Hnot. rewrite Heq. by apply list_elem_of_fmap_2.
Qed.

Lemma StronglySorted_lookup {A} (R : relation A) (l : list A) (i j : nat) (a b : A) :
  StronglySorted R l → l !! i = Some a → l !! j = Some b → (i < j)%nat → R a b.
Proof.
  intros Hl. revert i j. induction Hl as [|x r Hr IH Hx]; intros i j; [done|].
  destruct i as [|i], j as [|j]; simpl; try lia.
  - intros [= ->] Hb _. rewrite Forall_forall in Hx. apply Hx.
    by eapply list_elem_of_lookup_2.
  - intros Ha Hb Hij. eapply IH; [done..|lia].
Qed.

Lemma getStopTimesForTrip_perm (this : GTFSParser) (tripId : string) :
  getStopTimesForTrip this tripId ≡ₚ enrich this <$> storedTimes this tripId.
Proof. apply sort_perm. Qed.

Lemma getIntermediateStops_perm (this : GTFSParser) (tripId : string) :
  getIntermediateStops this tripId ≡ₚ
  enrich this <$> Js.slice 1 (-1) (storedTimes this tripId).
Proof. apply sort_perm. Qed.

Lemma enrich_sequence (this : GTFSParser) (l : list StopTime.t) :
  EnrichedStopTime.stop_sequence <$> (enrich this <$> l) = StopTime.stop_sequence <$> l.
Proof. by rewrite <- list_fmap_compose. Qed.

(** The length of the intermediate stops, whatever the stored order. *)
Lemma getIntermediateStops_length (this : GTFSParser) (tripId : string) :
  length (getIntermediateStops this tripId) =
  (length (getStopTimesForTrip this tripId) - 2)%nat.
Proof.
  rewrite getIntermediateStops_perm, getStopTimesForTrip_perm.
  by rewrite !length_fmap, slice_inner_length.
Qed.

Lemma slice_fmap {A B} (f : A → B) (first last : Z) (l : list A) :
  Js.slice first last (f <$> l) = f <$> Js.slice first last l.
Proof. unfold Js.slice. by rewrite length_fmap, fmap_take, fmap_drop. Qed.

Lemma slice_StronglySorted {A} (R : relation A) (first last : Z) (l : list A) :
  StronglySorted R l → StronglySorted R (Js.slice first last l).
Proof.
  intros Hl. assert (∀ k, k `sublist_of` l → StronglySorted R k) as Hsub.
  { clear first last. induction Hl as [|x r Hr IH Hx]; intros k Hk.
    - apply sublist_nil_r in Hk as ->. constructor.
    - apply sublist_cons_r in Hk as [Hk|(k' & -> & Hk)]; [by apply IH|].
      constructor; [by apply IH|].
      rewrite Forall_forall in Hx |- *. intros y Hy. apply Hx.
      by eapply elem_of_sublist. }
  apply Hsub, slice_sublist.
Qed.

(** When the list of a trip is stored in the order of its sequence
    numbers, the intermediate stops are the stop-times of the trip without
    the first and the last. *)
Lemma getIntermediateStops_of_sorted (this : GTFSParser) (tripId : string) :
  StronglySorted (λ a b, StopTime.stop_sequence a ≤ StopTime.stop_sequence b)
    (storedTimes this tripId) →
  getIntermediateStops this tripId = Js.slice 1 (-1) (getStopTimesForTrip this tripId).
Proof.
  intros Hs.
  assert (StronglySorted (Js.before bySequence) (enrich this <$> storedTimes this tripId)) as He.
  { eapply StronglySorted_fmap; [|exact Hs].
    intros a b Hab. unfold Js.before, bySequence, EnrichedStopTime.stop_sequence.
    cbn in *. lia. }
  unfold getStopTimesForTrip, getIntermediateStops. fold (storedTimes this tripId).
  rewrite (sort_sorted_id _ _ He), slice_fmap.
  apply sort_sorted_id. rewrite <- slice_fmap. by apply slice_StronglySorted.
Qed.

(** C7: when the stop-times stored for a trip have pairwise different
    sequence numbers, [getStopTimesForTrip] returns them, each once and
    with the name and the code of its stop, with strictly increasing
    sequence numbers. *)
Theorem stop_times_strictly_increasing (this : GTFSParser) (tripId : string) :
  NoDup (StopTime.stop_sequence <$> storedTimes this tripId) →
  StronglySorted
    (λ a b, EnrichedStopTime.stop_sequence a < EnrichedStopTime.stop_sequence b)
    (getStopTimesForTrip this tripId)
  ∧ getStopTimesForTrip this tripId ≡ₚ enrich this <$> storedTimes this tripId
  ∧ EnrichedStopTime.time <$> getStopTimesForTrip this tripId ≡ₚ storedTimes this tripId
  ∧ length (getStopTimesForTrip this tripId) = length (storedTimes this tripId)
  ∧ (∀ t, t ∈ storedTimes this tripId → enrich this t ∈ getStopTimesForTrip this tripId).
Proof.
  intros Hnd. split_and!.
  - apply StronglySorted_strict.
    + apply (sort_sorted bySequence bySequence_total bySequence_trans).
    + by rewrite getStopTimesForTrip_perm, enrich_sequence.
  - apply getStopTimesForTrip_perm.
  - rewrite getStopTimesForTrip_perm, <- list_fmap_compose.
    by rewrite <- (list_fmap_id (storedTimes this tripId)) at 2.
  - by rewrite getStopTimesForTrip_perm, length_fmap.
  - intros t Ht. rewrite getStopTimesForTrip_perm. by apply list_elem_of_fmap_2.
Qed.

Lemma stop_times_strictly_increasing_witness :
  storedTimes Fixture.reversed "T1"
  = [Fixture.at_stop "B" "09:30:00" 2; Fixture.at_stop "A" "08:00:00" 1;
     Fixture.at_stop "C" "25:15:00" 3]
  ∧ StronglySorted
      (λ a b, EnrichedStopTime.stop_sequence a < EnrichedStopTime.stop_sequence b)
      (getStopTimesForTrip Fixture.reversed "T1")
  ∧ EnrichedStopTime.time <$> getStopTimesForTrip Fixture.reversed "T1"
    ≡ₚ storedTimes Fixture.reversed "T1"
  ∧ length (getStopTimesForTrip Fixture.reversed "T1") = 3%nat.
Proof.
  split; [by vm_compute|].
  destruct (stop_times_strictly_increasing Fixture.reversed "T1")
    as (Hsorted & _ & Htimes & Hlength & _); [compute_done|].
  split_and!; [exact Hsorted|exact Htimes|by rewrite Hlength].
Defined.

(** C2: on a trip stored as B (2), A (1), C (3) the intermediate stops are
    the stop with sequence number 1, the origin, where the stop-times of
    the trip without the first and the last are the stop with sequence
    number 2. *)
Theorem intermediate_stops_sliced_before_sorted :
  EnrichedStopTime.stop_sequence <$> getStopTimesForTrip Fixture.reversed "T1" = [1; 2; 3]
  ∧ EnrichedStopTime.stop_sequence <$> getIntermediateStops Fixture.reversed "T1" = [1]
  ∧ EnrichedStopTime.stop_sequence <$>
      Js.slice 1 (-1) (getStopTimesForTrip Fixture.reversed "T1") = [2].
Proof. by vm_compute. Qed.

(** ** The service calendar *)

Lemma add_calendar_date_keys (calendarDates : list CalendarDateException.t)
    (m : gmap string (gmap Z Z)) :
  (∀ sid, is_Some (m !! sid) → Js.truthy sid = true) →
  ∀ sid, is_Some (fold_left add_calendar_date calendarDates m !! sid) →
         Js.truthy sid = true.
Proof.
  revert m. induction calendarDates as [|x r IH]; intros m Hm; simpl; [done|].
  apply IH. intros sid. unfold add_calendar_date.
  destruct (Js.truthy (CalendarDateException.service_id x)) eqn:Hx; [|apply Hm].
  destruct (decide (sid = CalendarDateException.service_id x)) as [->|Hne]; [done|].
  rewrite lookup_insert_ne by done. apply Hm.
Qed.

Lemma add_calendar_skipped (calendar : list CalendarEntry.t)
    (m : gmap string CalendarEntry.t) :
  Forall (λ e, Js.truthy (CalendarEntry.service_id e) = false) calendar →
  fold_left add_calendar calendar m = m.
Proof.
  induction 1 as [|e r He _ IH]; simpl; [done|].
  unfold add_calendar at 2. by rewrite He.
Qed.

Lemma add_calendar_date_skipped (calendarDates : list CalendarDateException.t)
    (m : gmap string (gmap Z Z)) :
  Forall (λ x, Js.truthy (CalendarDateException.service_id x) = false) calendarDates →
  fold_left add_calendar_date calendarDates m = m.
Proof.
  induction 1 as [|x r Hx _ IH]; simpl; [done|].
  unfold add_calendar_date at 2. by rewrite Hx.
Qed.

Lemma truthy_empty : Js.truthy EmptyString = false.
Proof. reflexivity. Qed.

Lemma truthy_true (s : string) : Js.truthy s = true ↔ s ≠ EmptyString.
Proof.
  unfold Js.truthy. destruct (String.eqb_spec s EmptyString); simpl; split; congruence.
Qed.

(** A service with an exception in a loaded store has a name, and the
    store has calendar data. *)
Lemma loaded_exception (this : GTFSParser) (serviceId : string) (exceptions : gmap Z Z) :
  loaded this →
  calendarDateExceptions this !! serviceId = Some exceptions →
  hasCalendarData this = true ∧ Js.truthy serviceId = true.
Proof.
  intros (rs & ss & sts & ts & c & cd & ->)%loaded_inv. simpl. intros Hs. split.
  - apply orb_true_iff. right. apply bool_decide_eq_true.
    assert (size (fold_left add_calendar_date cd ∅) ≠ 0)%nat; [|lia].
    rewrite map_size_ne_0_lookup. by exists serviceId.
  - eapply add_calendar_date_keys; [|by rewrite Hs].
    intros sid. rewrite lookup_empty. by intros [? ?].
Qed.

(** C3: in a loaded store, an exception for the service on the date
    decides: type 1 makes the service active and type 2 makes it inactive,
    whatever the calendar entry of the service says. *)
Theorem exception_precedence (this : GTFSParser) (serviceId : string) (date : Date.t)
    (exceptions : gmap Z Z) (exceptionType : Z) :
  loaded this →
  calendarDateExceptions this !! serviceId = Some exceptions →
  exceptions !! dateInt date = Some exceptionType →
  (exceptionType = 1 → isServiceActiveOnDate this serviceId date = true) ∧
  (exceptionType = 2 → isServiceActiveOnDate this serviceId date = false).
Proof.
  intros Hl Hs Hd. destruct (loaded_exception _ _ _ Hl Hs) as [Hflag Hsid].
  unfold isServiceActiveOnDate. rewrite Hflag, Hsid, Hs, Hd. simpl.
  split; by intros ->.
Qed.

Lemma exception_precedence_witness :
  (base_schedule Fixture.with_calendar "S1" Fixture.monday = false
   ∧ isServiceActiveOnDate Fixture.with_calendar "S1" Fixture.monday = true)
  ∧ (base_schedule Fixture.with_calendar "S2" Fixture.monday = true
     ∧ isServiceActiveOnDate Fixture.with_calendar "S2" Fixture.monday = false).
Proof.
  split; (split; [by vm_compute|]).
  - apply (exception_precedence Fixture.with_calendar "S1" Fixture.monday
             {[ 20240115 := 1 ]} 1); [constructor|by vm_compute..|done].
  - apply (exception_precedence Fixture.with_calendar "S2" Fixture.monday
             {[ 20240115 := 2 ]} 2); [constructor|by vm_compute..|done].
Defined.

(** The flag after a load: it is off exactly when no calendar entry and no
    exception had a service id. *)
Lemma overrideData_hasCalendarData routes stops stopTimes trips calendar calendarDates :
  Forall (λ e, Js.truthy (CalendarEntry.service_id e) = false) calendar →
  Forall (λ x, Js.truthy (CalendarDateException.service_id x) = false) calendarDates →
  hasCalendarData (overrideData routes stops stopTimes trips calendar calendarDates)
  = false.
Proof.
  intros Hc Hd. simpl.
  rewrite (add_calendar_skipped _ _ Hc), (add_calendar_date_skipped _ _ Hd).
  by rewrite !map_size_empty.
Qed.

Lemma active_without_calendar (this : GTFSParser) (serviceId : string) (date : Date.t) :
  hasCalendarData this = false → isServiceActiveOnDate this serviceId date = true.
Proof. unfold isServiceActiveOnDate. by intros ->. Qed.

Lemma active_without_service_id (this : GTFSParser) (date : Date.t) :
  isServiceActiveOnDate this EmptyString date = true.
Proof. unfold isServiceActiveOnDate. by destruct (hasCalendarData this). Qed.

(** C4: after a load that took in no calendar entry and no exception every
    service is active on every date; and the service without a name is
    active on every date after any load. *)
Theorem calendar_fallback routes stops stopTimes trips calendar calendarDates
    (serviceId : string) (date : Date.t) :
  (Forall (λ e, Js.truthy (CalendarEntry.service_id e) = false) calendar
   ∧ Forall (λ x, Js.truthy (CalendarDateException.service_id x) = false) calendarDates)
  ∨ serviceId = EmptyString →
  isServiceActiveOnDate
    (overrideData routes stops stopTimes trips calendar calendarDates) serviceId date
  = true.
Proof.
  intros [[Hc Hd]| ->].
  - by apply active_without_calendar, overrideData_hasCalendarData.
  - apply active_without_service_id.
Qed.

Lemma calendar_fallback_witness :
  hasCalendarData Fixture.feed = false
  ∧ isServiceActiveOnDate Fixture.feed "S1" Fixture.monday = true
  ∧ isServiceActiveOnDate Fixture.feed EmptyString Fixture.monday = true
  ∧ hasCalendarData Fixture.with_calendar = true
  ∧ isServiceActiveOnDate Fixture.with_calendar EmptyString Fixture.monday = true.
Proof.
  split_and!; [by vm_compute| | |by vm_compute|].
  - apply calendar_fallback. left. split; constructor.
  - apply calendar_fallback. by right.
  - apply calendar_fallback. by right.
Defined.

(** ** Trips between two stops *)

Section TripsBetween.
Variable this : GTFSParser.
Variables fromStopId toStopId : string.

Lemma visit_push (date : option Date.t) (results : list TripMatch.t)
    (e : string * list StopTime.t) :
  findTripsWithStops_visit this fromStopId toStopId date results e =
  results ++ findTripsWithStops_visit this fromStopId toStopId date [] e.
Proof.
  unfold findTripsWithStops_visit. cbv zeta.
  destruct (skipped_for_date _ _ _); [by rewrite app_nil_r|].
  destruct (_ && _); [|by rewrite app_nil_r].
  repeat case_match; by rewrite ?app_nil_r.
Qed.

Lemma matchingTrips_bind (date : option Date.t) :
  matchingTrips this fromStopId toStopId date =
  stopTimes this ≫= findTripsWithStops_visit this fromStopId toStopId date [].
Proof.
  unfold matchingTrips. rewrite fold_left_push; [done|]. intros. apply visit_push.
Qed.

(** What a callback pushes: the first stop-time at each of the two stops,
    the first of them at the smaller index. *)
Lemma visit_inv (date : option Date.t) (e : string * list StopTime.t) (r : TripMatch.t) :
  r ∈ findTripsWithStops_visit this fromStopId toStopId date [] e →
  skipped_for_date this date e.1 = false ∧ TripMatch.tripId r = e.1 ∧
  ∃ (i j : nat) (f t : StopTime.t),
    (i < j)%nat ∧ e.2 !! i = Some f ∧ e.2 !! j = Some t ∧
    stops_at fromStopId f = true ∧ stops_at toStopId t = true ∧
    TripMatch.fromStop r = enrich this f ∧ TripMatch.toStop r = enrich this t ∧
    TripMatch.intermediateStops r =
      enrich this <$> Js.slice (Z.of_nat i + 1) (Z.of_nat j) e.2.
Proof.
  unfold findTripsWithStops_visit. cbv zeta.
  destruct (skipped_for_date _ _ _); [by intros ?%elem_of_nil|].
  set (fromIdx := Js.findIndex (stops_at fromStopId) e.2).
  set (toIdx := Js.findIndex (stops_at toStopId) e.2).
  destruct (_ && _) eqn:Htest; [|by intros ?%elem_of_nil].
  apply andb_true_iff in Htest as [[Hf Ht]%andb_true_iff Hlt].
  apply negb_true_iff, Z.eqb_neq in Hf, Ht. apply Z.ltb_lt in Hlt.
  destruct (findIndex_found _ e.2 fromIdx eq_refl Hf) as (Hf0 & f & Hfa & Hfl & Hfp).
  destruct (findIndex_found _ e.2 toIdx eq_refl Ht) as (Ht0 & t & Hta & Htl & Htp).
  rewrite Hfa, Hta. rewrite app_nil_l. intros ->%list_elem_of_singleton.
  split; [done|]. split; [done|].
  exists (Z.to_nat fromIdx), (Z.to_nat toIdx), f, t. simpl.
  rewrite !Z2Nat.id by lia. split_and!; try done. lia.
Qed.

Lemma visit_not_skipped (date : option Date.t) (e : string * list StopTime.t) :
  skipped_for_date this date e.1 = false →
  findTripsWithStops_visit this fromStopId toStopId date [] e =
  findTripsWithStops_visit this fromStopId toStopId None [] e.
Proof. unfold findTripsWithStops_visit. by intros ->. Qed.

Lemma matchingTrips_elem_of (date : option Date.t) (r : TripMatch.t) :
  r ∈ matchingTrips this fromStopId toStopId date ↔
  ∃ e, r ∈ findTripsWithStops_visit this fromStopId toStopId date [] e
       ∧ e ∈ stopTimes this.
Proof. rewrite matchingTrips_bind. apply list_elem_of_bind. Qed.

Variable localeCompare : string → string → Z.

Lemma findTripsWithStops_matching (date : option Date.t) (r : TripMatch.t) :
  r ∈ findTripsWithStops localeCompare this fromStopId toStopId date →
  r ∈ matchingTrips this fromStopId toStopId date.
Proof. by intros Hr%filter_unseen_elem_of%sort_elem_of. Qed.

Lemma findTripsWithStops_inv (date : option Date.t) (r : TripMatch.t) :
  r ∈ findTripsWithStops localeCompare this fromStopId toStopId date →
  ∃ times (i j : nat) (f t : StopTime.t),
    (TripMatch.tripId r, times) ∈ stopTimes this ∧
    (i < j)%nat ∧ times !! i = Some f ∧ times !! j = Some t ∧
    TripMatch.fromStop r = enrich this f ∧ TripMatch.toStop r = enrich this t ∧
    TripMatch.intermediateStops r =
      enrich this <$> Js.slice (Z.of_nat i + 1) (Z.of_nat j) times.
Proof.
  intros ([tid times] & Hv & He)%findTripsWithStops_matching%matchingTrips_elem_of.
  apply visit_inv in Hv as (_ & Hid & i & j & f & t & Hij & Hi & Hj & _ & _ & Hf & Ht & Hm).
  simpl in *. subst tid. by exists times, i, j, f, t.
Qed.

End TripsBetween.

(** Where the stop-times of a trip are stored in strictly increasing order
    of their sequence numbers, the order of the positions is the order of
    the sequence numbers: in a loaded store, a match for such a trip has a
    from-stop with a smaller sequence number than its to-stop. *)
Lemma stored_in_sequence_directional (localeCompare : string → string → Z)
    (this : GTFSParser) (fromStopId toStopId : string) (date : option Date.t)
    (r : TripMatch.t) :
  loaded this →
  r ∈ findTripsWithStops localeCompare this fromStopId toStopId date →
  StronglySorted inSequenceOrder (storedTimes this (TripMatch.tripId r)) →
  EnrichedStopTime.stop_sequence (TripMatch.fromStop r)
  < EnrichedStopTime.stop_sequence (TripMatch.toStop r).
Proof.
  intros Hl (times & i & j & f & t & He & Hij & Hi & Hj & -> & -> & _)%findTripsWithStops_inv.
  rewrite (storedTimes_elem_of _ _ _ Hl He). intros Hs.
  apply (StronglySorted_lookup _ _ _ _ _ _ Hs Hi Hj Hij).
Qed.

Lemma stored_in_sequence_directional_example :
  ∃ r, findTripsWithStops Ascii7.codeUnitCompare Fixture.feed "A" "B" None = [r]
       ∧ EnrichedStopTime.stop_sequence (TripMatch.fromStop r)
         < EnrichedStopTime.stop_sequence (TripMatch.toStop r).
Proof.
  eexists. split; [by vm_compute|].
  apply (stored_in_sequence_directional Ascii7.codeUnitCompare Fixture.feed "A" "B" None).
  - constructor.
  - vm_compute. left.
  - vm_compute. repeat constructor.
Defined.

(** C1: [findTripsWithStops] orders the two stops by their position in the
    list as it is stored and never reads a sequence number. On a trip
    stored as B (2), A (1), C (3), which [getStopTimesForTrip] returns in
    the order A, B, C, the trips from B to A are that trip, with the
    sequence number 2 at its from-stop and 1 at its to-stop, and the trips
    from A to B, the direction of travel, are none. *)
Theorem directional_connectivity :
  storedTimes Fixture.reversed "T1"
  = [Fixture.at_stop "B" "09:30:00" 2; Fixture.at_stop "A" "08:00:00" 1;
     Fixture.at_stop "C" "25:15:00" 3]
  ∧ EnrichedStopTime.stop_id <$> getStopTimesForTrip Fixture.reversed "T1"
    = ["A"; "B"; "C"]
  ∧ (∃ r, findTripsWithStops Ascii7.codeUnitCompare Fixture.reversed "B" "A" None = [r]
          ∧ TripMatch.tripId r = "T1"
          ∧ EnrichedStopTime.stop_sequence (TripMatch.fromStop r) = 2
          ∧ EnrichedStopTime.stop_sequence (TripMatch.toStop r) = 1)
  ∧ findTripsWithStops Ascii7.codeUnitCompare Fixture.reversed "A" "B" None = [].
Proof.
  split; [by vm_compute|]. split; [by vm_compute|]. split; [|by vm_compute].
  eexists. split; [by vm_compute|]. by vm_compute.
Qed.

(** ** The order of the matches and the last filter *)

Lemma ascii_compare_eq (x y : ascii) : Ascii.compare x y = Eq ↔ x = y.
Proof.
  split; [apply Ascii.compare_eq_iff|]. intros ->. apply N.compare_refl.
Qed.

Lemma ascii_compare_lt_trans (x y z : ascii) :
  Ascii.compare x y = Lt → Ascii.compare y z = Lt → Ascii.compare x z = Lt.
Proof. unfold Ascii.compare. rewrite !N.compare_lt_iff. lia. Qed.

Lemma string_compare_trans (a b c : string) :
  String.compare a b ≠ Gt → String.compare b c ≠ Gt → String.compare a c ≠ Gt.
Proof.
  revert b c. induction a as [|x a IH]; intros [|y b] [|z c]; simpl; try done.
  destruct (Ascii.compare x y) eqn:Hxy; [| |done];
    (destruct (Ascii.compare y z) eqn:Hyz; [| |done]).
  - apply ascii_compare_eq in Hxy as ->. rewrite Hyz. apply IH.
  - apply ascii_compare_eq in Hxy as ->. by rewrite Hyz.
  - apply ascii_compare_eq in Hyz as <-. by rewrite Hxy.
  - by rewrite (ascii_compare_lt_trans _ _ _ Hxy Hyz).
Qed.

Lemma lexicographic_iff (a b : string) : lexicographic a b ↔ String.compare a b ≠ Gt.
Proof.
  unfold lexicographic, Ascii7.codeUnitCompare.
  destruct (String.compare a b); split; (done || lia).
Qed.

Lemma lexicographic_total (a b : string) : lexicographic a b ∨ lexicographic b a.
Proof.
  rewrite !lexicographic_iff, (String.compare_antisym b a).
  destruct (String.compare a b); simpl; auto.
Qed.

Lemma lexicographic_trans (a b c : string) :
  lexicographic a b → lexicographic b c → lexicographic a c.
Proof. rewrite !lexicographic_iff. apply string_compare_trans. Qed.

Lemma NoDup_fmap_eq {A B} (f : A → B) (l : list A) (x y : A) :
  NoDup (f <$> l) → x ∈ l → y ∈ l → f x = f y → x = y.
Proof.
  induction l as [|z r IH]; [by intros _ ?%elem_of_nil|].
  rewrite fmap_cons. intros [Hz Hr]%NoDup_cons [->|Hx]%elem_of_cons [->|Hy]%elem_of_cons Hf.
  - done.
  - destruct Hz. rewrite Hf. by apply list_elem_of_fmap_2.
  - destruct Hz. rewrite <- Hf. by apply list_elem_of_fmap_2.
  - by apply IH.
Qed.

(** The train number of a trip whose record has a short name is that name. *)
Lemma trainNumberOf_named (this : GTFSParser) (tripId name : string) :
  shortName this tripId = Some name → name ≠ EmptyString →
  trainNumberOf this tripId = name.
Proof.
  unfold shortName, trainNumberOf, Js.or_else.
  destruct (trips this !! tripId) as [trip|]; [|done].
  intros [= <-] Hname%truthy_true. by rewrite Hname.
Qed.

Lemma dedupKey_of_pair (this : GTFSParser) (r1 r2 : TripMatch.t) :
  trainNumberOf this (TripMatch.tripId r1) = trainNumberOf this (TripMatch.tripId r2) →
  fromDeparture r1 = fromDeparture r2 →
  dedupKey this r1 = dedupKey this r2.
Proof. unfold dedupKey. by intros -> ->. Qed.

(** C5, as amended. The matches are sorted by the departure from the
    from-stop under [localeCompare], for a [localeCompare] that is an
    order (total and transitive), and the result is in that order; where
    [localeCompare] orders the departure times of the matches as the
    comparison of their code units does, that is the ascending
    lexicographic order. Whatever [localeCompare] does, the sorted array is
    a permutation of the matches, and of the matches that share a key (the
    train number, a dash and the departure) the result keeps the first of
    the sorted array and no other, so every match has an entry with its
    key; the train number is the short name of the trip when its record
    has a non-empty one and the trip id otherwise, so two matches with
    equal train number and departure are one entry of the result. *)
Theorem sorted_and_deduplicated (localeCompare : string → string → Z)
    (this : GTFSParser) (fromStopId toStopId : string) (date : option Date.t) :
  let matches := matchingTrips this fromStopId toStopId date in
  let sorted := Js.sort (byDeparture localeCompare) matches in
  let result := findTripsWithStops localeCompare this fromStopId toStopId date in
  ((∀ a b, localeCompare a b ≤ 0 ∨ localeCompare b a ≤ 0) →
   (∀ a b c, localeCompare a b ≤ 0 → localeCompare b c ≤ 0 → localeCompare a c ≤ 0) →
   StronglySorted (λ r1 r2, localeCompare (fromDeparture r1) (fromDeparture r2) ≤ 0) sorted
   ∧ StronglySorted (λ r1 r2, localeCompare (fromDeparture r1) (fromDeparture r2) ≤ 0)
       result)
  ∧ ((∀ r1 r2, r1 ∈ matches → r2 ∈ matches →
               localeCompare (fromDeparture r1) (fromDeparture r2) ≤ 0
               ↔ lexicographic (fromDeparture r1) (fromDeparture r2)) →
     StronglySorted (λ r1 r2, lexicographic (fromDeparture r1) (fromDeparture r2)) sorted
     ∧ StronglySorted (λ r1 r2, lexicographic (fromDeparture r1) (fromDeparture r2))
         result)
  ∧ sorted ≡ₚ matches
  ∧ result `sublist_of` sorted
  ∧ (∀ r, r ∈ result ↔
          ∃ pre post, sorted = pre ++ r :: post
                      ∧ (dedupKey this r ∉ dedupKey this <$> pre))
  ∧ (∀ m, m ∈ matches → ∃ r, r ∈ result ∧ dedupKey this r = dedupKey this m)
  ∧ (∀ r1 r2, r1 ∈ result → r2 ∈ result →
              trainNumberOf this (TripMatch.tripId r1)
              = trainNumberOf this (TripMatch.tripId r2) →
              fromDeparture r1 = fromDeparture r2 → r1 = r2)
  ∧ (∀ r1 r2 name, r1 ∈ result → r2 ∈ result →
                   shortName this (TripMatch.tripId r1) = Some name →
                   shortName this (TripMatch.tripId r2) = Some name →
                   name ≠ EmptyString →
                   fromDeparture r1 = fromDeparture r2 → r1 = r2).
Proof.
  intros matches sorted result. split_and!.
  - intros Htotal Htrans.
    assert (StronglySorted
              (λ r1 r2, localeCompare (fromDeparture r1) (fromDeparture r2) ≤ 0) sorted)
      as Hs.
    { apply (sort_sorted (byDeparture localeCompare)).
      - intros a b. apply Htotal.
      - intros a b c. apply Htrans. }
    split; [done|]. by apply filter_unseen_StronglySorted.
  - intros Hagree.
    assert (sorted = Js.sort (byDeparture Ascii7.codeUnitCompare) matches) as Hsorted.
    { apply sort_ext. intros r1 r2 H1 H2. unfold byDeparture.
      specialize (Hagree r1 r2 H1 H2). unfold lexicographic in Hagree.
      destruct (Z.ltb_spec 0 (localeCompare (fromDeparture r1) (fromDeparture r2)));
        destruct (Z.ltb_spec 0
                    (Ascii7.codeUnitCompare (fromDeparture r1) (fromDeparture r2)));
        (done || lia). }
    assert (StronglySorted (λ r1 r2, lexicographic (fromDeparture r1) (fromDeparture r2))
              sorted) as Hs.
    { rewrite Hsorted. apply (sort_sorted (byDeparture Ascii7.codeUnitCompare)).
      - intros a b. apply lexicographic_total.
      - intros a b c. apply lexicographic_trans. }
    split; [done|]. by apply filter_unseen_StronglySorted.
  - apply sort_perm.
  - apply filter_unseen_sublist.
  - intros r. split.
    + intros (pre & post & Heq & _ & Hpre)%filter_unseen_kept. by exists pre, post.
    + intros (pre & post & Heq & Hpre). unfold result, findTripsWithStops.
      fold matches. fold sorted. rewrite Heq.
      apply filter_unseen_first; [set_solver|done].
  - intros m Hm. apply (filter_unseen_represented (dedupKey this) ∅ sorted m).
    + by apply sort_elem_of.
    + apply not_elem_of_empty.
  - intros r1 r2 H1 H2 Hn Hd.
    eapply (NoDup_fmap_eq (dedupKey this)); [apply filter_unseen_NoDup|done..|].
    by apply dedupKey_of_pair.
  - intros r1 r2 name H1 H2 Hn1 Hn2 Hname Hd.
    eapply (NoDup_fmap_eq (dedupKey this)); [apply filter_unseen_NoDup|done..|].
    apply dedupKey_of_pair; [|done].
    by rewrite (trainNumberOf_named _ _ _ Hn1 Hname), (trainNumberOf_named _ _ _ Hn2 Hname).
Qed.

Lemma sorted_and_deduplicated_witness :
  StronglySorted
    (λ r1 r2, Ascii7.codeUnitCompare (fromDeparture r1) (fromDeparture r2) ≤ 0)
    (findTripsWithStops Ascii7.codeUnitCompare Fixture.same_run "A" "B" None)
  ∧ StronglySorted (λ r1 r2, lexicographic (fromDeparture r1) (fromDeparture r2))
      (findTripsWithStops Ascii7.codeUnitCompare Fixture.same_run "A" "B" None)
  ∧ TripMatch.tripId <$> matchingTrips Fixture.same_run "A" "B" None = ["T1"; "T2"]
  ∧ TripMatch.tripId <$>
      findTripsWithStops Ascii7.codeUnitCompare Fixture.same_run "A" "B" None = ["T1"].
Proof.
  destruct (sorted_and_deduplicated Ascii7.codeUnitCompare Fixture.same_run "A" "B" None)
    as (Hlocale & Hlex & _).
  split_and!; [| |by vm_compute..].
  - apply Hlocale.
    + intros a b. apply lexicographic_total.
    + intros a b c. apply lexicographic_trans.
  - apply Hlex. intros r1 r2 _ _. reflexivity.
Defined.

(** C5, as it was stated, fails on two trips whose records have the same,
    empty, short name and that leave A at the same time: both stay. *)
Lemma sorted_and_deduplicated_counterexample :
  ∃ r1 r2,
    findTripsWithStops Ascii7.codeUnitCompare Fixture.unnamed_runs "A" "B" None = [r1; r2]
    ∧ shortName Fixture.unnamed_runs (TripMatch.tripId r1) = Some EmptyString
    ∧ shortName Fixture.unnamed_runs (TripMatch.tripId r2) = Some EmptyString
    ∧ fromDeparture r1 = fromDeparture r2
    ∧ TripMatch.tripId r1 ≠ TripMatch.tripId r2.
Proof.
  do 2 eexists. split; [by vm_compute|]. by vm_compute.
Qed.

(** ** Times are handed on as they are stored *)

Lemma set_elem_of {V} (k k' : string) (v v' : V) (m : JsMap V) :
  (k, v) ∈ JsMap.set k' v' m → (k, v) = (k', v') ∨ (k, v) ∈ m.
Proof.
  induction m as [|[k0 v0] r IH]; simpl.
  - intros ->%list_elem_of_singleton. by left.
  - destruct (String.eqb_spec k' k0) as [->|Hne].
    + intros [->|Hin]%elem_of_cons; [by left|]. right. by right.
    + intros [->|[->|Hin]%IH]%elem_of_cons; [right; left|by left|right; by right].
Qed.

(** The lists in the store are lists of the feed, as the feed had them. *)
Lemma stored_from_feed routes stops stopTimes trips calendar calendarDates
    (tripId : string) (t : StopTime.t) :
  stored (overrideData routes stops stopTimes trips calendar calendarDates) tripId t →
  ∃ times, (tripId, times) ∈ stopTimes ∧ t ∈ times.
Proof.
  intros (times & Hin & Ht). exists times. split; [|done]. simpl in Hin.
  assert (∀ m : JsMap (list StopTime.t),
    (tripId, times) ∈ fold_left add_stop_times stopTimes m →
    (tripId, times) ∈ stopTimes ∨ (tripId, times) ∈ m) as Hfold.
  { clear Hin. induction stopTimes as [|e r IH]; intros m; simpl; [by right|].
    intros [Hr|Hm]%IH; [left; by right|].
    unfold add_stop_times in Hm. destruct (Js.truthy e.1); [|by right].
    apply set_elem_of in Hm as [Heq|Hm]; [|by right].
    left. destruct e. simpl in Heq. rewrite Heq. left. }
  by destruct (Hfold [] Hin) as [?|?%elem_of_nil].
Qed.

Lemma storedTimes_stored (this : GTFSParser) (tripId : string) (t : StopTime.t) :
  t ∈ storedTimes this tripId → stored this tripId t.
Proof.
  unfold storedTimes. destruct (JsMap.get tripId (stopTimes this)) as [times|] eqn:Hg.
  - intros Ht. exists times. split; [by apply get_elem_of|done].
  - by intros ?%elem_of_nil.
Qed.

(** C8: a stop-time that a retrieval operation returns for a trip is a
    stop-time stored for that trip, with the arrival and departure strings
    it was stored with. *)
Theorem times_returned_verbatim (localeCompare : string → string → Z)
    (this : GTFSParser) (tripId : string) (e : EnrichedStopTime.t) :
  retrieved localeCompare this tripId e →
  ∃ t, stored this tripId t
       ∧ EnrichedStopTime.time e = t
       ∧ EnrichedStopTime.arrival_time e = StopTime.arrival_time t
       ∧ EnrichedStopTime.departure_time e = StopTime.departure_time t.
Proof.
  assert (∀ t, stored this tripId t →
    ∃ t', stored this tripId t'
          ∧ EnrichedStopTime.time (enrich this t) = t'
          ∧ EnrichedStopTime.arrival_time (enrich this t) = StopTime.arrival_time t'
          ∧ EnrichedStopTime.departure_time (enrich this t) = StopTime.departure_time t')
    as Henrich by (intros t Ht; by exists t).
  intros [e' He|e' He|r a b date Hr <-|r a b date Hr <-|r a b date e' Hr <- He].
  - rewrite getStopTimesForTrip_perm in He.
    apply list_elem_of_fmap in He as (t & -> & Ht). by apply Henrich, storedTimes_stored.
  - rewrite getIntermediateStops_perm in He.
    apply list_elem_of_fmap in He as (t & -> & Ht%slice_elem_of).
    by apply Henrich, storedTimes_stored.
  - apply findTripsWithStops_inv in Hr
      as (times & i & j & f & t & Hin & _ & Hi & _ & -> & _).
    apply Henrich. exists times. split; [done|]. by eapply list_elem_of_lookup_2.
  - apply findTripsWithStops_inv in Hr
      as (times & i & j & f & t & Hin & _ & _ & Hj & _ & -> & _).
    apply Henrich. exists times. split; [done|]. by eapply list_elem_of_lookup_2.
  - apply findTripsWithStops_inv in Hr
      as (times & i & j & f & t & Hin & _ & _ & _ & _ & _ & Hm).
    rewrite Hm in He. apply list_elem_of_fmap in He as (t' & -> & Ht'%slice_elem_of).
    apply Henrich. by exists times.
Qed.

Lemma times_returned_verbatim_witness :
  ∃ e, last (getStopTimesForTrip Fixture.reversed "T1") = Some e
       ∧ EnrichedStopTime.departure_time e = "25:15:00"
       ∧ ∃ t, stored Fixture.reversed "T1" t
              ∧ EnrichedStopTime.time e = t
              ∧ EnrichedStopTime.arrival_time e = StopTime.arrival_time t
              ∧ EnrichedStopTime.departure_time e = StopTime.departure_time t.
Proof.
  eexists. split; [by vm_compute|]. split; [by vm_compute|].
  apply (times_returned_verbatim Ascii7.codeUnitCompare).
  apply retrieved_stop_time. vm_compute. do 2 right. left.
Defined.

(** ** Trips at a stop *)

(** One callback keeps [seen] the set of the ids in [trips], and adds the id
    of the entry when the trip stops there, is new and passes the date test. *)
Lemma getTripsForStop_visit_spec (this : GTFSParser) (stopId : string)
    (date : option Date.t) (acc : list string) (seen : gset string)
    (e : string * list StopTime.t) :
  (∀ x, x ∈ seen ↔ x ∈ acc) →
  let after := getTripsForStop_visit this stopId date (acc, seen) e in
  (∀ x, x ∈ after.2 ↔ x ∈ after.1)
  ∧ ∀ tripId, tripId ∈ after.1 ↔
      tripId ∈ acc ∨ (tripId = e.1 ∧ Js.some (stops_at stopId) e.2 = true
                      ∧ skipped_for_date this date e.1 = false).
Proof.
  intros Hseen. unfold getTripsForStop_visit. cbn [fst snd].
  destruct (Js.some (stops_at stopId) e.2); cbn [andb];
    [case_bool_decide as Hin; cbn [negb];
       [|destruct (skipped_for_date this date e.1)]|].
  - apply Hseen in Hin. split; [done|]. intros tripId.
    split; [by left|]. intros [?|(-> & _)]; done.
  - split; [done|]. intros tripId. split; [by left|]. intros [?|(_ & _ & ?)]; done.
  - cbn [fst snd]. split.
    + intros x. rewrite elem_of_union, elem_of_singleton, elem_of_app,
        list_elem_of_singleton, Hseen. tauto.
    + intros tripId. rewrite elem_of_app, list_elem_of_singleton. tauto.
  - split; [done|]. intros tripId. split; [by left|]. intros [?|(_ & ? & _)]; done.
Qed.

Lemma getTripsForStop_fold (this : GTFSParser) (stopId : string) (date : option Date.t)
    (l : list (string * list StopTime.t)) (acc : list string) (seen : gset string) :
  (∀ x, x ∈ seen ↔ x ∈ acc) →
  ∀ tripId,
    tripId ∈ (fold_left (getTripsForStop_visit this stopId date) l (acc, seen)).1 ↔
    tripId ∈ acc ∨
    ∃ times, (tripId, times) ∈ l ∧ Js.some (stops_at stopId) times = true
             ∧ skipped_for_date this date tripId = false.
Proof.
  revert acc seen. induction l as [|e r IH]; intros acc seen Hseen tripId.
  - simpl. split; [by left|]. intros [?|(? & ?%elem_of_nil & _)]; done.
  - cbn [fold_left].
    destruct (getTripsForStop_visit_spec this stopId date acc seen e Hseen)
      as [Hseen' Hacc'].
    destruct (getTripsForStop_visit this stopId date (acc, seen) e) as [acc' seen'].
    cbn [fst snd] in *. rewrite (IH acc' seen' Hseen'), Hacc'. split.
    + intros [[?|(-> & Hs & Hk)]|(times & Hin & Hs & Hk)].
      * by left.
      * right. exists e.2. split; [|done]. destruct e. left.
      * right. exists times. split; [by right|done].
    + intros [?|(times & [<-|Hin]%elem_of_cons & Hs & Hk)].
      * by left; left.
      * left. right. done.
      * right. by exists times.
Qed.

Lemma getTripsForStop_elem_of (this : GTFSParser) (stopId : string)
    (date : option Date.t) (tripId : string) :
  tripId ∈ getTripsForStop this stopId date ↔
  ∃ times, (tripId, times) ∈ stopTimes this ∧ Js.some (stops_at stopId) times = true
           ∧ skipped_for_date this date tripId = false.
Proof.
  unfold getTripsForStop. rewrite getTripsForStop_fold by set_solver.
  split; [|by right]. intros [?%elem_of_nil|?]; done.
Qed.

(** C10: a trip that has stop-times and no trip record passes the date
    test of both scans, for no date and for every date: it is among the
    trips at each of its stops, each of its matches without a date is a
    match with the date, and the result has an entry with the key of that
    match. *)
Theorem no_trip_record_never_filtered (localeCompare : string → string → Z)
    (this : GTFSParser) (tripId : string) (times : list StopTime.t)
    (date : option Date.t) :
  (tripId, times) ∈ stopTimes this →
  trips this !! tripId = None →
  skipped_for_date this date tripId = false
  ∧ (∀ stopId, Js.some (stops_at stopId) times = true →
               tripId ∈ getTripsForStop this stopId date)
  ∧ (∀ fromStopId toStopId r,
       r ∈ matchingTrips this fromStopId toStopId None →
       TripMatch.tripId r = tripId →
       r ∈ matchingTrips this fromStopId toStopId date
       ∧ ∃ r', r' ∈ findTripsWithStops localeCompare this fromStopId toStopId date
               ∧ dedupKey this r' = dedupKey this r).
Proof.
  intros Hin Hnone.
  assert (skipped_for_date this date tripId = false) as Hpass.
  { unfold skipped_for_date. rewrite Hnone. by destruct date. }
  split; [done|]. split.
  - intros stopId Hsome. apply getTripsForStop_elem_of. by exists times.
  - intros a b r Hr Hid.
    assert (r ∈ matchingTrips this a b date) as Hdated.
    { apply matchingTrips_elem_of in Hr as (e & Hv & He).
      apply matchingTrips_elem_of. exists e. split; [|done].
      destruct (visit_inv _ _ _ _ _ _ Hv) as (_ & Hide & _).
      rewrite visit_not_skipped; [done|]. by rewrite <- Hide, Hid. }
    split; [done|].
    apply filter_unseen_represented; [by apply sort_elem_of|set_solver].
Qed.

Lemma no_trip_record_never_filtered_witness :
  trips Fixture.with_calendar !! "T9" = None
  ∧ getTripsForStop Fixture.with_calendar "A" (Some Fixture.monday) = ["T1"; "T9"]
  ∧ TripMatch.tripId <$>
      findTripsWithStops Ascii7.codeUnitCompare Fixture.with_calendar "A" "B"
        (Some Fixture.monday) = ["T1"; "T9"]
  ∧ skipped_for_date Fixture.with_calendar (Some Fixture.monday) "T9" = false
  ∧ "T9" ∈ getTripsForStop Fixture.with_calendar "A" (Some Fixture.monday).
Proof.
  split; [by vm_compute|]. split; [by vm_compute|]. split; [by vm_compute|].
  destruct (no_trip_record_never_filtered Ascii7.codeUnitCompare Fixture.with_calendar
              "T9" [Fixture.at_stop "A" "12:00:00" 1; Fixture.at_stop "B" "13:30:00" 2]
              (Some Fixture.monday)) as (Hpass & Hat & _).
  - vm_compute. do 2 right. left.
  - by vm_compute.
  - split; [exact Hpass|]. by apply Hat.
Defined.

(** ** What is not found *)

Lemma fold_left_unchanged {A B} (visit : B → A → B) (l : list A) (acc : B) :
  (∀ acc e, e ∈ l → visit acc e = acc) → fold_left visit l acc = acc.
Proof.
  revert acc. induction l as [|e r IH]; intros acc Hl; simpl; [done|].
  rewrite Hl by left. apply IH. intros acc' e' He'. apply Hl. by right.
Qed.

Lemma values_get {V} (k : string) (v : V) (m : JsMap V) :
  JsMap.get k m = Some v → v ∈ JsMap.values m.
Proof.
  intros Hg%get_elem_of. unfold JsMap.values.
  apply list_elem_of_fmap. by exists (k, v).
Qed.

Lemma getTripsForStop_not_served (this : GTFSParser) (stopId : string)
    (date : option Date.t) :
  (∀ e, e ∈ stopTimes this → Js.some (stops_at stopId) e.2 = false) →
  getTripsForStop this stopId date = [].
Proof.
  intros Hno. destruct (getTripsForStop this stopId date) as [|tid r] eqn:Hg; [done|].
  assert (tid ∈ getTripsForStop this stopId date) as Hin by (rewrite Hg; left).
  apply getTripsForStop_elem_of in Hin as (times & Hin & Hsome & _).
  apply Hno in Hin. simpl in Hin. congruence.
Qed.

Lemma some_false {A} (p : A → bool) (l : list A) :
  Js.some p l = false → Js.findIndex p l = -1.
Proof.
  intros Hs. apply findIndex_from_none; [done|].
  apply Forall_forall. intros x Hx%list_elem_of_In.
  destruct (p x) eqn:Hp; [|done].
  unfold Js.some in Hs. apply not_true_iff_false in Hs. destruct Hs.
  apply existsb_exists. by exists x.
Qed.

Lemma matchingTrips_not_served (this : GTFSParser) (fromStopId toStopId : string)
    (date : option Date.t) :
  (∀ e, e ∈ stopTimes this →
        Js.some (stops_at fromStopId) e.2 = false
        ∨ Js.some (stops_at toStopId) e.2 = false) →
  matchingTrips this fromStopId toStopId date = [].
Proof.
  intros Hno. unfold matchingTrips. apply fold_left_unchanged.
  intros acc e He. unfold findTripsWithStops_visit. cbv zeta.
  destruct (skipped_for_date _ _ _); [done|].
  destruct (Hno e He) as [Hs|Hs]; rewrite (some_false _ _ Hs); simpl; [done|].
  by rewrite andb_false_r.
Qed.

Section NotFound.
Variable toLowerCase : string → string.
Variable localeCompare : string → string → Z.
Variable this : GTFSParser.

Lemma search_results_nothing (query : string) :
  nothing_matches toLowerCase this query → search_results toLowerCase this query = [].
Proof.
  intros [Hstop Hroute Htrain]. unfold search_results.
  rewrite (fold_left_unchanged (search_stop toLowerCase query)); cycle 1.
  { intros acc stop [Hn Hi]%Hstop. unfold search_stop. cbv zeta. by rewrite Hn, Hi. }
  rewrite (fold_left_unchanged (search_route toLowerCase query)); cycle 1.
  { intros acc route (Hl & Hs & Hi)%Hroute. unfold search_route. cbv zeta.
    rewrite Hl, Hi. destruct (Route.route_short_name route) as [short|]; [|done].
    by rewrite (Hs short eq_refl). }
  assert (search_by_number toLowerCase this query [] = []) as ->.
  { unfold search_by_number.
    destruct (Js.truthy (trainNumberQuery toLowerCase query)); [|done].
    by destruct Htrain as [-> _]. }
  apply fold_left_unchanged. intros acc e He. unfold search_trip. cbv zeta.
  assert (Js.truthy (trainNumberQuery toLowerCase query)
          && JsString.endsWith (toLowerCase e.1) (trainNumberQuery toLowerCase query)
          = false) as ->.
  { destruct (Js.truthy (trainNumberQuery toLowerCase query)); [|done].
    destruct Htrain as [_ Hends]; [done|]. by rewrite (Hends e He). }
  cbn [andb].
  apply fold_left_unchanged. intros acc' stopId _. unfold search_trip_stop.
  destruct (JsMap.get stopId (stops this)) as [stop|] eqn:Hg; [|done].
  apply values_get, Hstop in Hg as [-> _]. done.
Qed.

(** C9: what is not stored is answered by an empty array, [false],
    [undefined] or a default name. Every operation is a total function of
    the store and its arguments: none has a path that throws. *)
Theorem absent_is_empty :
  (∀ tripId, JsMap.get tripId (stopTimes this) = None →
     getStopTimesForTrip this tripId = [] ∧ getIntermediateStops this tripId = [])
  ∧ (∀ routeId, JsMap.get routeId (routes this) = None →
       getRoute this routeId = None ∧ getRouteName this routeId = "Unknown Route")
  ∧ (∀ stopId, JsMap.get stopId (stops this) = None →
       getStop this stopId = None ∧ getStopName this stopId = stopId)
  ∧ (∀ tripId, trips this !! tripId = None →
       getTrip this tripId = None ∧ getRouteIdForTrip this tripId = None)
  ∧ (∀ trainNumber, tripsByNumber this !! trainNumber = None →
       getTripsByNumber this trainNumber = [])
  ∧ (∀ stopId other date,
       (∀ e, e ∈ stopTimes this → Js.some (stops_at stopId) e.2 = false) →
       getTripsForStop this stopId date = []
       ∧ findTripsWithStops localeCompare this stopId other date = []
       ∧ findTripsWithStops localeCompare this other stopId date = [])
  ∧ (∀ serviceId date,
       hasCalendarData this = true → serviceId ≠ EmptyString →
       calendarDateExceptions this !! serviceId = None →
       calendarEntries this !! serviceId = None →
       isServiceActiveOnDate this serviceId date = false)
  ∧ (∀ query, nothing_matches toLowerCase this query →
       search toLowerCase this query = [] ∧ searchStations toLowerCase this query = []).
Proof.
  split_and!.
  - intros tripId Hg. unfold getStopTimesForTrip, getIntermediateStops. by rewrite Hg.
  - intros routeId Hg. unfold getRoute, getRouteName. by rewrite Hg.
  - intros stopId Hg. unfold getStop, getStopName. by rewrite Hg.
  - intros tripId Hg. unfold getTrip, getRouteIdForTrip. by rewrite Hg.
  - intros trainNumber Hg. unfold getTripsByNumber. by rewrite Hg.
  - intros stopId other date Hno. split; [by apply getTripsForStop_not_served|].
    unfold findTripsWithStops.
    rewrite !matchingTrips_not_served; [done|intros e He; right; auto|intros e He; left; auto].
  - intros serviceId date Hflag Hsid%truthy_true Hex Hen.
    unfold isServiceActiveOnDate, base_schedule. by rewrite Hflag, Hsid, Hex, Hen.
  - intros query Hq. split.
    + unfold search. by rewrite search_results_nothing.
    + unfold searchStations. cbv zeta. rewrite fold_left_unchanged; [done|].
      intros acc stop [Hn Hi]%(no_stop _ _ _ Hq). by rewrite Hn, Hi.
Qed.

End NotFound.

Lemma absent_is_empty_witness :
  getStopTimesForTrip Fixture.feed "T404" = []
  ∧ getIntermediateStops Fixture.feed "T404" = []
  ∧ getRouteName Fixture.feed "R404" = "Unknown Route"
  ∧ getStopName Fixture.feed "ZZZ" = "ZZZ"
  ∧ search Ascii7.toLowerCase Fixture.feed "zzz" = [].
Proof.
  destruct (absent_is_empty Ascii7.toLowerCase Ascii7.codeUnitCompare Fixture.feed)
    as (Htimes & Hroute & Hstop & _ & _ & _ & _ & Hsearch).
  destruct (Htimes "T404") as [-> ->]; [by vm_compute|].
  destruct (Hroute "R404") as [_ ->]; [by vm_compute|].
  destruct (Hstop "ZZZ") as [_ ->]; [by vm_compute|].
  destruct (Hsearch "zzz") as [-> _]; [|done].
  split.
  - apply Forall_forall. vm_compute. by repeat constructor.
  - apply Forall_forall. vm_compute. repeat constructor. by intros short [=].
  - by vm_compute.
Defined.

(** ** Search *)

(** C6: [search] returns at most 20 results with pairwise different ids:
    the first 20 of the results whose id was not met before, in the order
    in which the passes produced them. The result is a function of the
    store and the query, so a second call on the same store with the same
    query returns the same array. *)
Theorem search_capped_and_deduplicated (toLowerCase : string → string)
    (this : GTFSParser) (query : string) :
  let results := search_results toLowerCase this query in
  let found := search toLowerCase this query in
  (length found ≤ 20)%nat
  ∧ NoDup (SearchResult.id <$> found)
  ∧ found = take 20 (Js.filter_unseen SearchResult.id ∅ results)
  ∧ found `sublist_of` results
  ∧ (∀ r, r ∈ found →
          ∃ pre post, results = pre ++ r :: post
                      ∧ (SearchResult.id r ∉ SearchResult.id <$> pre))
  ∧ (∀ this' query', this' = this → query' = query →
                     search toLowerCase this' query' = found).
Proof.
  intros results found.
  assert (found = take 20 (Js.filter_unseen SearchResult.id ∅ results)) as Hfound.
  { unfold found, search. apply (slice_prefix 20). }
  split_and!.
  - rewrite Hfound, length_take. lia.
  - rewrite Hfound, fmap_take. eapply sublist_NoDup; [|apply sublist_take].
    apply filter_unseen_NoDup.
  - done.
  - rewrite Hfound. etrans; [apply sublist_take|apply filter_unseen_sublist].
  - intros r Hr. rewrite Hfound in Hr.
    assert (r ∈ Js.filter_unseen SearchResult.id ∅ results) as Hin.
    { eapply elem_of_sublist; [exact Hr|apply sublist_take]. }
    apply filter_unseen_kept in Hin as (pre & post & Heq & _ & Hpre).
    by exists pre, post.
  - by intros this' query' -> ->.
Qed.

(** The train-number scenario of the specification. *)
Example search_by_train_number :
  SearchResult.id <$> search Ascii7.toLowerCase Fixture.feed "amt1234" = ["train-T1"]
  ∧ search Ascii7.toLowerCase Fixture.feed "1234"
    = search Ascii7.toLowerCase Fixture.feed "amt1234".
Proof. by vm_compute. Qed.

(** The load-and-lookup scenario of the specification. *)
Example load_and_lookup :
  EnrichedStopTime.stop_id <$> getStopTimesForTrip Fixture.feed "T1" = ["A"; "B"]
  ∧ getIntermediateStops Fixture.feed "T1" = []
  ∧ isLoaded Fixture.feed = true.
Proof. by vm_compute. Qed.

(** * Further properties *)

(** ** What a load stores *)

Lemma get_set {V} (k k' : string) (v : V) (m : JsMap V) :
  JsMap.get k (JsMap.set k' v m) = if String.eqb k k' then Some v else JsMap.get k m.
Proof.
  induction m as [|[k0 v0] r IH]; simpl.
  - by destruct (String.eqb k k').
  - destruct (String.eqb_spec k' k0) as [->|Hne]; simpl.
    + by destruct (String.eqb k k0).
    + rewrite IH. destruct (String.eqb_spec k k0) as [->|?]; [|done].
      destruct (String.eqb_spec k0 k'); [congruence|done].
Qed.

(** The entry the map holds for a key after a [forEach] that sets the keyed
    elements of an array: the last element of the array with that key. *)
Lemma get_fold_set {A V} (key : A → string) (val : A → V) (l : list A)
    (m : JsMap V) (k : string) :
  JsMap.get k
    (fold_left (λ m x, if Js.truthy (key x) then JsMap.set (key x) (val x) m else m) l m)
  = match List.find (λ x, Js.truthy (key x) && String.eqb (key x) k) (reverse l) with
    | Some x => Some (val x)
    | None => JsMap.get k m
    end.
Proof.
  induction l as [|x l IH] using rev_ind; [done|].
  rewrite fold_left_app, reverse_app. simpl.
  destruct (Js.truthy (key x)); simpl; [|apply IH].
  rewrite get_set, String.eqb_sym. destruct (String.eqb (key x) k); [done|apply IH].
Qed.

Lemma find_last_spec {A} (key : A → string) (l : list A) (k : string) (x : A) :
  List.find (λ x, Js.truthy (key x) && String.eqb (key x) k) (reverse l) = Some x →
  key x = k ∧ k ≠ EmptyString ∧ x ∈ l.
Proof.
  intros [Hin [Ht Hk]%andb_true_iff]%find_some.
  apply String.eqb_eq in Hk. apply truthy_true in Ht.
  apply list_elem_of_In in Hin. rewrite elem_of_reverse in Hin. subst k. by split_and!.
Qed.

(** X1: after a load, [getStop] and [getRoute] return the last record of the
    feed that has the id asked for, and nothing for the empty id or an id
    that no record has; the record returned has the id asked for. *)
Theorem lookup_after_load routes stops stopTimes trips calendar calendarDates
    (id : string) :
  let this := overrideData routes stops stopTimes trips calendar calendarDates in
  getStop this id
  = List.find (λ s, Js.truthy (Stop.stop_id s) && String.eqb (Stop.stop_id s) id)
      (reverse stops)
  ∧ getRoute this id
    = List.find (λ r, Js.truthy (Route.route_id r) && String.eqb (Route.route_id r) id)
        (reverse routes)
  ∧ (∀ s, getStop this id = Some s → Stop.stop_id s = id ∧ id ≠ EmptyString ∧ s ∈ stops)
  ∧ (∀ r, getRoute this id = Some r →
          Route.route_id r = id ∧ id ≠ EmptyString ∧ r ∈ routes).
Proof.
  intros this.
  assert (getStop this id
          = List.find (λ s, Js.truthy (Stop.stop_id s) && String.eqb (Stop.stop_id s) id)
              (reverse stops)) as Hstop.
  { unfold getStop, this. simpl.
    etrans; [apply (get_fold_set Stop.stop_id (λ s, s))|]. by case_match. }
  assert (getRoute this id
          = List.find (λ r, Js.truthy (Route.route_id r) && String.eqb (Route.route_id r) id)
              (reverse routes)) as Hroute.
  { unfold getRoute, this. simpl.
    etrans; [apply (get_fold_set Route.route_id (λ r, r))|]. by case_match. }
  split_and!; [done|done| |].
  - intros s. rewrite Hstop. apply find_last_spec.
  - intros r. rewrite Hroute. apply find_last_spec.
Qed.

Lemma add_trip_fold_trips (trips : list Trip.t)
    (acc : gmap string Trip.t * gmap string (list Trip.t)) (k : string) :
  (fold_left add_trip trips acc).1 !! k
  = match List.find (λ t, Js.truthy (Trip.trip_id t) && String.eqb (Trip.trip_id t) k)
            (reverse trips) with
    | Some t => Some t
    | None => acc.1 !! k
    end.
Proof.
  induction trips as [|t l IH] using rev_ind; [done|].
  rewrite fold_left_app, reverse_app. simpl. unfold add_trip at 1.
  destruct (Js.truthy (Trip.trip_id t)); simpl; [|apply IH].
  assert (∀ b : gmap string (list Trip.t),
    (<[Trip.trip_id t:=t]> (fold_left add_trip l acc).1, b).1 !! k
    = if String.eqb (Trip.trip_id t) k then Some t
      else (fold_left add_trip l acc).1 !! k) as Hins.
  { intros b. simpl. destruct (String.eqb_spec (Trip.trip_id t) k) as [->|Hne].
    - apply lookup_insert_eq.
    - by apply lookup_insert_ne. }
  destruct (Js.truthy (Trip.trip_short_name t)); rewrite Hins;
    (destruct (String.eqb (Trip.trip_id t) k); [done|apply IH]).
Qed.

Lemma add_trip_fold_numbers (trips : list Trip.t)
    (acc : gmap string Trip.t * gmap string (list Trip.t)) (n : string) :
  default [] ((fold_left add_trip trips acc).2 !! n)
  = default [] (acc.2 !! n) ++ List.filter (numbered n) trips.
Proof.
  revert acc. induction trips as [|t l IH]; intros acc; simpl.
  - by rewrite app_nil_r.
  - rewrite IH. unfold add_trip at 1, numbered at 2.
    destruct (Js.truthy (Trip.trip_id t)); simpl; [|done].
    destruct (Js.truthy (Trip.trip_short_name t)); simpl; [|done].
    destruct (String.eqb_spec (Trip.trip_short_name t) n) as [->|Hne].
    + rewrite lookup_insert_eq. simpl. by rewrite <- app_assoc.
    + by rewrite lookup_insert_ne.
Qed.

(** X2: after a load, [getTrip] returns the last trip of the feed with the
    id asked for (nothing for the empty id), [getRouteIdForTrip] its route,
    and [getTripsByNumber] the trips of the feed with a trip id and that
    non-empty short name, in the order of the feed, a trip id that the feed
    repeats included each time. *)
Theorem trips_after_load routes stops stopTimes trips calendar calendarDates
    (key : string) :
  let this := overrideData routes stops stopTimes trips calendar calendarDates in
  getTrip this key
  = List.find (λ t, Js.truthy (Trip.trip_id t) && String.eqb (Trip.trip_id t) key)
      (reverse trips)
  ∧ getRouteIdForTrip this key = Trip.route_id <$> getTrip this key
  ∧ getTripsByNumber this key = List.filter (numbered key) trips
  ∧ (∀ t, getTrip this key = Some t →
          Trip.trip_id t = key ∧ key ≠ EmptyString ∧ t ∈ trips)
  ∧ (∀ t, t ∈ getTripsByNumber this key →
          Trip.trip_short_name t = key ∧ key ≠ EmptyString
          ∧ Trip.trip_id t ≠ EmptyString ∧ t ∈ trips).
Proof.
  intros this.
  assert (getTrip this key
          = List.find (λ t, Js.truthy (Trip.trip_id t) && String.eqb (Trip.trip_id t) key)
              (reverse trips)) as Htrip.
  { unfold getTrip, this. simpl. rewrite add_trip_fold_trips. simpl.
    rewrite lookup_empty. by case_match. }
  assert (getTripsByNumber this key = List.filter (numbered key) trips) as Hnum.
  { unfold getTripsByNumber, this. simpl. rewrite add_trip_fold_numbers. simpl.
    by rewrite lookup_empty. }
  split_and!; [done|done|done| |].
  - intros t. rewrite Htrip. apply (find_last_spec Trip.trip_id).
  - intros t. rewrite Hnum. intros Hin%list_elem_of_In%filter_In.
    destruct Hin as [Hin [[Hid%truthy_true Hs%truthy_true]%andb_true_iff
                            Heq%String.eqb_eq]%andb_true_iff].
    apply list_elem_of_In in Hin. subst key. by split_and!.
Qed.

(** ** The two flags of a load *)

Lemma fold_set_nil {A V} (key : A → string) (val : A → V) (l : list A) (m : JsMap V) :
  fold_left (λ m x, if Js.truthy (key x) then JsMap.set (key x) (val x) m else m) l m = []
  ↔ m = [] ∧ existsb (λ x, Js.truthy (key x)) l = false.
Proof.
  revert m. induction l as [|x l IH]; intros m; simpl; [tauto|].
  rewrite IH. destruct (Js.truthy (key x)); simpl; [|done].
  split; [|by intros [_ ?]]. intros [Hset _].
  destruct m as [|[k v] r]; simpl in Hset; [done|].
  by destruct (String.eqb (key x) k).
Qed.

Lemma fold_insert_empty {A K V} `{Countable K} (on : A → bool) (step : gmap K V → A → gmap K V)
    (l : list A) (m : gmap K V) :
  (∀ m x, on x = false → step m x = m) →
  (∀ m x, on x = true → step m x ≠ ∅) →
  (∀ m x, m ≠ ∅ → step m x ≠ ∅) →
  fold_left step l m = ∅ ↔ m = ∅ ∧ existsb on l = false.
Proof.
  intros Hoff Hon Hkeep. revert m. induction l as [|x l IH]; intros m; simpl; [tauto|].
  rewrite IH. destruct (on x) eqn:Hx; simpl.
  - split; [|by intros [_ ?]]. intros [Hs _]. by apply Hon in Hs.
  - by rewrite Hoff.
Qed.

Lemma size_positive {K V} `{Countable K} (m : gmap K V) :
  bool_decide (0 < size m)%nat = negb (bool_decide (m = ∅)).
Proof.
  case_bool_decide as Hs; case_bool_decide as Hm; try done.
  - subst m. rewrite map_size_empty in Hs. lia.
  - apply map_size_non_empty_iff in Hm. lia.
Qed.

Lemma size_fold_set {A V} (key : A → string) (val : A → V) (l : list A) :
  bool_decide (0 < JsMap.size
    (fold_left (λ m x, if Js.truthy (key x) then JsMap.set (key x) (val x) m else m)
       l []))%nat
  = existsb (λ x, Js.truthy (key x)) l.
Proof.
  pose proof (fold_set_nil key val l []) as [Hnil1 Hnil2].
  destruct (existsb (λ x, Js.truthy (key x)) l).
  - apply bool_decide_eq_true. unfold JsMap.size.
    match goal with |- context [length ?m] => destruct m end;
      [by destruct (Hnil1 eq_refl)|simpl; lia].
  - by rewrite Hnil2.
Qed.

(** X3: after a load, the parser is loaded exactly when the feed has a
    route with an id and a stop with an id, and it has calendar data exactly
    when the feed has a calendar entry or an exception with a service id. *)
Theorem flags_after_load routes stops stopTimes trips calendar calendarDates :
  let this := overrideData routes stops stopTimes trips calendar calendarDates in
  isLoaded this
  = existsb (λ r, Js.truthy (Route.route_id r)) routes
    && existsb (λ s, Js.truthy (Stop.stop_id s)) stops
  ∧ hasCalendarData this
    = existsb (λ e, Js.truthy (CalendarEntry.service_id e)) calendar
      || existsb (λ x, Js.truthy (CalendarDateException.service_id x)) calendarDates.
Proof.
  intros this. unfold this. simpl. split.
  - f_equal.
    + apply (size_fold_set Route.route_id (λ r, r)).
    + apply (size_fold_set Stop.stop_id (λ s, s)).
  - rewrite !size_positive. f_equal.
    + pose proof (fold_insert_empty (λ e, Js.truthy (CalendarEntry.service_id e))
                    add_calendar calendar ∅) as Hc.
      destruct Hc as [Hc1 Hc2].
      * intros m e He. unfold add_calendar. by rewrite He.
      * intros m e He. unfold add_calendar. rewrite He. apply insert_non_empty.
      * intros m e Hm. unfold add_calendar. destruct (Js.truthy _); [|done].
        apply insert_non_empty.
      * case_bool_decide as Hm.
        -- by destruct (Hc1 Hm) as [_ ->].
        -- destruct (existsb _ calendar); [done|]. by destruct Hm; apply Hc2.
    + pose proof (fold_insert_empty (λ x, Js.truthy (CalendarDateException.service_id x))
                    add_calendar_date calendarDates ∅) as Hc.
      destruct Hc as [Hc1 Hc2].
      * intros m e He. unfold add_calendar_date. by rewrite He.
      * intros m e He. unfold add_calendar_date. rewrite He. apply insert_non_empty.
      * intros m e Hm. unfold add_calendar_date. destruct (Js.truthy _); [|done].
        apply insert_non_empty.
      * case_bool_decide as Hm.
        -- by destruct (Hc1 Hm) as [_ ->].
        -- destruct (existsb _ calendarDates); [done|]. by destruct Hm; apply Hc2.
Qed.

(** ** The trip ids of the store *)

Lemma keys_elem_of_get {V} (k : string) (m : JsMap V) :
  k ∈ JsMap.keys m ↔ is_Some (JsMap.get k m).
Proof.
  destruct (JsMap.get k m) as [v|] eqn:Hg.
  - split; [by eexists|]. intros _. destruct (decide (k ∈ JsMap.keys m)) as [|Hn]; [done|].
    apply get_None in Hn. congruence.
  - apply get_None in Hg. split; [done|]. by intros [? ?].
Qed.

(** X4: after a load, [getAllTripIds] lists each non-empty trip id of the
    stop-time table of the feed once, and the list stored for a trip id is
    the one the last entry of the table with that id has. *)
Theorem trip_ids_after_load routes stops entries trips calendar calendarDates :
  let this := overrideData routes stops entries trips calendar calendarDates in
  NoDup (getAllTripIds this)
  ∧ (∀ tripId, tripId ∈ getAllTripIds this ↔
               tripId ≠ EmptyString ∧ tripId ∈ entries.*1)
  ∧ (∀ tripId, storedTimes this tripId
               = default []
                   (snd <$> List.find (λ e, Js.truthy e.1 && String.eqb e.1 tripId)
                              (reverse entries))).
Proof.
  intros this.
  assert (∀ tripId, JsMap.get tripId (stopTimes this)
            = snd <$> List.find (λ e, Js.truthy e.1 && String.eqb e.1 tripId)
                        (reverse entries)) as Hget.
  { intros tripId. unfold this. simpl.
    etrans; [apply (get_fold_set fst snd)|]. by case_match. }
  split_and!.
  - apply loaded_stopTimes_NoDup. constructor.
  - intros tripId. unfold getAllTripIds. rewrite keys_elem_of_get, Hget. split.
    + intros [times Hf]. destruct (List.find _ _) as [e|] eqn:He; [|done].
      apply (find_last_spec fst) in He as (<- & Hne & Hin).
      split; [done|]. by apply list_elem_of_fmap_2.
    + intros [Hne (e & -> & Hin)%list_elem_of_fmap].
      destruct (List.find _ _) as [e'|] eqn:He; [by eexists|].
      assert (Js.truthy e.1 && String.eqb e.1 e.1 = false) as Hf.
      { apply (find_none _ _ He e). apply list_elem_of_In. by rewrite elem_of_reverse. }
      apply truthy_true in Hne. by rewrite Hne, String.eqb_refl in Hf.
  - intros tripId. unfold storedTimes. by rewrite Hget.
Qed.

(** ** Trips at a stop *)

Lemma getTripsForStop_visit_cases (this : GTFSParser) (stopId : string)
    (date : option Date.t) (acc : list string) (seen : gset string)
    (e : string * list StopTime.t) :
  getTripsForStop_visit this stopId date (acc, seen) e = (acc, seen)
  ∨ (getTripsForStop_visit this stopId date (acc, seen) e
     = (acc ++ [e.1], {[e.1]} ∪ seen) ∧ e.1 ∉ seen).
Proof.
  unfold getTripsForStop_visit. cbn [fst snd].
  destruct (Js.some (stops_at stopId) e.2); cbn [andb]; [|by left].
  case_bool_decide; cbn [negb]; [by left|].
  destruct (skipped_for_date this date e.1); [by left|by right].
Qed.

Lemma getTripsForStop_fold_shape (this : GTFSParser) (stopId : string)
    (date : option Date.t) (l : list (string * list StopTime.t))
    (acc : list string) (seen : gset string) :
  (∀ x, x ∈ seen ↔ x ∈ acc) → NoDup acc →
  let after := fold_left (getTripsForStop_visit this stopId date) l (acc, seen) in
  NoDup after.1 ∧ ∃ rest, after.1 = acc ++ rest ∧ rest `sublist_of` l.*1.
Proof.
  revert acc seen. induction l as [|e l IH]; intros acc seen Hseen Hnd; simpl.
  - split; [done|]. exists []. by rewrite app_nil_r.
  - destruct (getTripsForStop_visit_cases this stopId date acc seen e) as [->|[-> Hnew]].
    + destruct (IH acc seen Hseen Hnd) as (Hn & rest & Hr & Hs).
      split; [done|]. exists rest. split; [done|]. by apply sublist_cons.
    + destruct (IH (acc ++ [e.1]) ({[e.1]} ∪ seen)) as (Hn & rest & Hr & Hs).
      * intros x. rewrite elem_of_union, elem_of_singleton, elem_of_app,
          list_elem_of_singleton, Hseen. tauto.
      * rewrite Hseen in Hnew. apply NoDup_app.
        split_and!; [done| |apply NoDup_singleton].
        by intros x Hx ->%list_elem_of_singleton.
      * split; [done|]. exists (e.1 :: rest). split.
        -- by rewrite Hr, <- app_assoc.
        -- by apply sublist_skip.
Qed.

(** X5: [getTripsForStop] returns no trip id twice, returns the ids in the
    order of [getAllTripIds], and returns exactly the ids of the trips with
    a stop-time at the stop that pass the date test. *)
Theorem trips_at_stop (this : GTFSParser) (stopId : string) (date : option Date.t) :
  NoDup (getTripsForStop this stopId date)
  ∧ getTripsForStop this stopId date `sublist_of` getAllTripIds this
  ∧ (∀ tripId, tripId ∈ getTripsForStop this stopId date ↔
       ∃ times, (tripId, times) ∈ stopTimes this
                ∧ (∃ t, t ∈ times ∧ StopTime.stop_id t = stopId)
                ∧ skipped_for_date this date tripId = false).
Proof.
  destruct (getTripsForStop_fold_shape this stopId date (stopTimes this) [] ∅)
    as (Hnd & rest & Hrest & Hsub);
    [split; [by intros ?%elem_of_empty|by intros ?%elem_of_nil]|constructor|].
  fold (getTripsForStop this stopId date) in Hnd, Hrest. simpl in Hrest.
  split_and!; [done|by rewrite Hrest| ].
  intros tripId. rewrite getTripsForStop_elem_of.
  assert (∀ times, Js.some (stops_at stopId) times = true
                   ↔ ∃ t, t ∈ times ∧ StopTime.stop_id t = stopId) as Hsome.
  { intros times. unfold Js.some. rewrite existsb_exists. unfold stops_at.
    split; intros (t & Hin & Ht); exists t.
    - by apply list_elem_of_In in Hin; apply String.eqb_eq in Ht.
    - by apply list_elem_of_In in Hin; apply String.eqb_eq in Ht. }
  split; intros (times & Hin & Hs & Hk); exists times; by rewrite ?Hsome in *.
Qed.

(** ** The date of a scan *)

Lemma seen_nothing (x : string) : x ∈ (∅ : gset string) ↔ x ∈ ([] : list string).
Proof. split; [by intros ?%elem_of_empty|by intros ?%elem_of_nil]. Qed.

Lemma getTripsForStop_fold_date (this : GTFSParser) (stopId : string) (date : option Date.t)
    (l : list (string * list StopTime.t))
    (acc accD : list string) (seen seenD : gset string) :
  (∀ x, x ∈ seen ↔ x ∈ acc) → (∀ x, x ∈ seenD ↔ x ∈ accD) →
  accD = List.filter (passes_date this date) acc →
  (fold_left (getTripsForStop_visit this stopId date) l (accD, seenD)).1
  = List.filter (passes_date this date)
      (fold_left (getTripsForStop_visit this stopId None) l (acc, seen)).1.
Proof.
  revert acc accD seen seenD.
  induction l as [|e l IH]; intros acc accD seen seenD Hseen HseenD Hacc; [done|].
  cbn [fold_left].
  destruct (getTripsForStop_visit_spec this stopId None acc seen e Hseen) as [Hs1 _].
  destruct (getTripsForStop_visit_spec this stopId date accD seenD e HseenD) as [Hs2 _].
  destruct (getTripsForStop_visit this stopId None (acc, seen) e) as [acc' seen'] eqn:Hn.
  destruct (getTripsForStop_visit this stopId date (accD, seenD) e) as [accD' seenD'] eqn:Hd.
  cbn [fst snd] in *. apply IH; [done..|].
  unfold getTripsForStop_visit in Hn, Hd. cbn [fst snd] in Hn, Hd.
  change (skipped_for_date this None e.1) with false in Hn.
  destruct (Js.some (stops_at stopId) e.2); cbn [andb] in Hn, Hd; [|congruence].
  assert (e.1 ∈ accD ↔ e.1 ∈ acc ∧ passes_date this date e.1 = true) as HinD.
  { rewrite Hacc, list_elem_of_In, filter_In, <- list_elem_of_In. tauto. }
  unfold passes_date in HinD.
  destruct (bool_decide (e.1 ∈ seen)) eqn:H1; cbn [negb] in Hn.
  - apply bool_decide_eq_true in H1. rewrite Hseen in H1.
    injection Hn as <- <-.
    destruct (bool_decide (e.1 ∈ seenD)) eqn:H2; cbn [negb] in Hd; [congruence|].
    apply bool_decide_eq_false in H2. rewrite HseenD, HinD in H2.
    destruct (skipped_for_date this date e.1); [congruence|]. destruct H2. done.
  - apply bool_decide_eq_false in H1. rewrite Hseen in H1.
    injection Hn as <- <-.
    rewrite bool_decide_eq_false_2 in Hd by (rewrite HseenD, HinD; tauto).
    cbn [negb] in Hd. rewrite List.filter_app. simpl. unfold passes_date at 2.
    destruct (skipped_for_date this date e.1); injection Hd as <- <-; simpl.
    + by rewrite app_nil_r.
    + by rewrite Hacc.
Qed.

Lemma getTripsForStop_date_eq (this : GTFSParser) (stopId : string)
    (date : option Date.t) :
  getTripsForStop this stopId date
  = List.filter (passes_date this date) (getTripsForStop this stopId None).
Proof.
  unfold getTripsForStop.
  apply getTripsForStop_fold_date; [apply seen_nothing..|reflexivity].
Qed.

(** X6: the date of [getTripsForStop] only removes trips: the result with a
    date is the result without a date, in its order, without the trips
    whose record names a service that is inactive on the date. *)
Theorem trips_at_stop_date_filter (this : GTFSParser) (stopId : string)
    (date : option Date.t) :
  getTripsForStop this stopId date
  = List.filter (passes_date this date) (getTripsForStop this stopId None)
  ∧ getTripsForStop this stopId date `sublist_of` getTripsForStop this stopId None.
Proof.
  split; [apply getTripsForStop_date_eq|].
  rewrite (getTripsForStop_date_eq this stopId date).
  induction (getTripsForStop this stopId None) as [|x l IH]; [done|]. simpl.
  destruct (passes_date this date x); [by apply sublist_skip|by apply sublist_cons].
Qed.

Lemma visit_single (this : GTFSParser) (fromStopId toStopId : string)
    (e : string * list StopTime.t) :
  findTripsWithStops_visit this fromStopId toStopId None [] e = []
  ∨ ∃ r, findTripsWithStops_visit this fromStopId toStopId None [] e = [r]
         ∧ TripMatch.tripId r = e.1.
Proof.
  unfold findTripsWithStops_visit. cbv zeta. change (skipped_for_date this None e.1) with false.
  cbv iota. destruct (_ && _); [|by left].
  repeat case_match; [|by left..]. right. by eexists.
Qed.

Lemma matchingTrips_date (this : GTFSParser) (fromStopId toStopId : string)
    (date : option Date.t) :
  matchingTrips this fromStopId toStopId date
  = List.filter (λ r, passes_date this date (TripMatch.tripId r))
      (matchingTrips this fromStopId toStopId None).
Proof.
  rewrite !matchingTrips_bind. induction (stopTimes this) as [|e l IH]; [done|].
  rewrite !bind_cons, List.filter_app, IH. f_equal.
  destruct (skipped_for_date this date e.1) eqn:Hs.
  - unfold findTripsWithStops_visit at 1. rewrite Hs.
    destruct (visit_single this fromStopId toStopId e) as [->|(r & -> & Hr)]; [done|].
    simpl. unfold passes_date. by rewrite Hr, Hs.
  - rewrite (visit_not_skipped this fromStopId toStopId date e Hs).
    destruct (visit_single this fromStopId toStopId e) as [->|(r & -> & Hr)]; [done|].
    simpl. unfold passes_date. by rewrite Hr, Hs.
Qed.

(** X7: the date of [findTripsWithStops] only removes qualifying trips: the
    matches before the sort are those without a date whose trip passes the
    date test, and every entry of the result with a date has the key of an
    entry of the result without a date. *)
Theorem trips_between_date_filter (localeCompare : string → string → Z)
    (this : GTFSParser) (fromStopId toStopId : string) (date : option Date.t) :
  matchingTrips this fromStopId toStopId date
  = List.filter (λ r, passes_date this date (TripMatch.tripId r))
      (matchingTrips this fromStopId toStopId None)
  ∧ (∀ r, r ∈ findTripsWithStops localeCompare this fromStopId toStopId date →
          passes_date this date (TripMatch.tripId r) = true
          ∧ ∃ r', r' ∈ findTripsWithStops localeCompare this fromStopId toStopId None
                  ∧ dedupKey this r' = dedupKey this r).
Proof.
  split; [apply matchingTrips_date|].
  intros r Hr%findTripsWithStops_matching. rewrite matchingTrips_date in Hr.
  apply list_elem_of_In, filter_In in Hr as [Hr%list_elem_of_In Hp].
  split; [done|].
  apply filter_unseen_represented; [by apply sort_elem_of|set_solver].
Qed.

(** X8: in a store without calendar data a date changes nothing: both scans
    return with a date what they return without. *)
Theorem date_without_calendar (localeCompare : string → string → Z)
    (this : GTFSParser) (date : Date.t) (stopId fromStopId toStopId : string) :
  hasCalendarData this = false →
  getTripsForStop this stopId (Some date) = getTripsForStop this stopId None
  ∧ findTripsWithStops localeCompare this fromStopId toStopId (Some date)
    = findTripsWithStops localeCompare this fromStopId toStopId None.
Proof.
  intros Hflag.
  assert (∀ tripId, passes_date this (Some date) tripId = true) as Hpass.
  { intros tripId. unfold passes_date, skipped_for_date.
    destruct (trips this !! tripId); [|done].
    by rewrite active_without_calendar. }
  assert (∀ {A} (p : A → bool) (l : list A), (∀ x, p x = true) → List.filter p l = l)
    as Hall.
  { intros A p l Hp. induction l as [|x l IH]; [done|]. simpl. by rewrite Hp, IH. }
  split.
  - rewrite getTripsForStop_date_eq. by apply Hall.
  - unfold findTripsWithStops. rewrite matchingTrips_date, Hall; [done|].
    intros r. apply Hpass.
Qed.

Lemma date_without_calendar_witness :
  hasCalendarData Fixture.feed = false
  ∧ getTripsForStop Fixture.feed "A" (Some Fixture.monday) = ["T1"]
  ∧ getTripsForStop Fixture.feed "A" (Some Fixture.monday)
    = getTripsForStop Fixture.feed "A" None.
Proof.
  split; [by vm_compute|]. split; [by vm_compute|].
  by apply (date_without_calendar Ascii7.codeUnitCompare Fixture.feed Fixture.monday
              "A" "A" "B").
Defined.

(** ** The shape of a match *)

Lemma findIndex_from_first {A} (p : A → bool) (l : list A) (i k : Z) :
  Js.findIndex_from p l i = k → 0 ≤ i → k ≠ -1 →
  Forall (λ x, p x = false) (take (Z.to_nat (k - i)) l).
Proof.
  revert i. induction l as [|x r IH]; intros i; simpl; [lia|].
  destruct (p x) eqn:Hp.
  - intros <- _ _. rewrite Z.sub_diag. constructor.
  - intros Hk Hi Hne.
    destruct (findIndex_from_found p r (i + 1) k Hk) as [Hle _]; [lia|done|].
    replace (Z.to_nat (k - i)) with (S (Z.to_nat (k - (i + 1)))) by lia.
    simpl. constructor; [done|]. apply (IH (i + 1)); [done|lia|done].
Qed.

Lemma slice_between {A} (l : list A) (i j : nat) :
  Js.slice (Z.of_nat i + 1) (Z.of_nat j) l = take (j - S i) (drop (S i) (take j l)).
Proof.
  unfold Js.slice, Js.rel_index.
  destruct (Z.ltb_spec (Z.of_nat i + 1) 0); [lia|].
  destruct (Z.ltb_spec (Z.of_nat j) 0); [lia|].
  destruct (decide (j ≤ length l)%nat) as [Hj|Hj].
  - rewrite (Z.min_l (Z.of_nat j)) by lia.
    destruct (decide (S i ≤ length l)%nat) as [Hi|Hi].
    + rewrite Z.min_l by lia.
      replace (Z.to_nat (Z.of_nat j - (Z.of_nat i + 1))) with (j - S i)%nat by lia.
      replace (Z.to_nat (Z.of_nat i + 1)) with (S i) by lia.
      destruct (decide (S i ≤ j)%nat) as [Hij|Hij].
      * rewrite (take_drop_commute l (j - S i) (S i)).
        replace (S i + (j - S i))%nat with j by lia.
        symmetry. apply take_ge. rewrite length_drop, length_take. lia.
      * replace (j - S i)%nat with 0%nat by lia. done.
    + rewrite Z.min_r by lia.
      replace (Z.to_nat (Z.of_nat j - Z.of_nat (length l))) with 0%nat by lia.
      replace (j - S i)%nat with 0%nat by lia. done.
  - rewrite (Z.min_r (Z.of_nat j)) by lia. rewrite (take_ge l j) by lia.
    destruct (decide (S i ≤ length l)%nat) as [Hi|Hi].
    + rewrite Z.min_l by lia.
      replace (Z.to_nat (Z.of_nat i + 1)) with (S i) by lia.
      rewrite !take_ge; [done|rewrite length_drop; lia..].
    + rewrite Z.min_r by lia. rewrite Nat2Z.id, !drop_ge by lia. by rewrite !take_nil.
Qed.

(** The list around two of its elements. *)
Lemma split_at_two {A} (l : list A) (i j : nat) (a b : A) :
  l !! i = Some a → l !! j = Some b → (i < j)%nat →
  l = take i l ++ a :: take (j - S i) (drop (S i) (take j l)) ++ b :: drop (S j) l.
Proof.
  intros Hi Hj Hij.
  rewrite <- (take_drop_middle l j b Hj) at 1.
  assert (take j l !! i = Some a) as Hi' by (by rewrite lookup_take_lt).
  rewrite <- (take_drop_middle (take j l) i a Hi') at 1.
  rewrite take_take, Nat.min_l by lia.
  rewrite <- app_assoc. simpl. do 3 f_equal.
  symmetry. apply take_ge. rewrite length_drop, length_take.
  apply lookup_lt_Some in Hj. lia.
Qed.

Lemma visit_inv_first (this : GTFSParser) (fromStopId toStopId : string)
    (date : option Date.t) (e : string * list StopTime.t) (r : TripMatch.t) :
  r ∈ findTripsWithStops_visit this fromStopId toStopId date [] e →
  ∃ (i j : nat) (f t : StopTime.t),
    (i < j)%nat ∧ e.2 !! i = Some f ∧ e.2 !! j = Some t
    ∧ stops_at fromStopId f = true ∧ stops_at toStopId t = true
    ∧ Forall (λ x, stops_at fromStopId x = false) (take i e.2)
    ∧ Forall (λ x, stops_at toStopId x = false) (take j e.2)
    ∧ r = {| TripMatch.tripId := e.1;
             TripMatch.fromStop := enrich this f;
             TripMatch.toStop := enrich this t;
             TripMatch.intermediateStops :=
               enrich this <$> Js.slice (Z.of_nat i + 1) (Z.of_nat j) e.2 |}.
Proof.
  unfold findTripsWithStops_visit. cbv zeta.
  destruct (skipped_for_date _ _ _); [by intros ?%elem_of_nil|].
  set (fromIdx := Js.findIndex (stops_at fromStopId) e.2).
  set (toIdx := Js.findIndex (stops_at toStopId) e.2).
  destruct (_ && _) eqn:Htest; [|by intros ?%elem_of_nil].
  apply andb_true_iff in Htest as [[Hf Ht]%andb_true_iff Hlt].
  apply negb_true_iff, Z.eqb_neq in Hf, Ht. apply Z.ltb_lt in Hlt.
  destruct (findIndex_found _ e.2 fromIdx eq_refl Hf) as (Hf0 & f & Hfa & Hfl & Hfp).
  destruct (findIndex_found _ e.2 toIdx eq_refl Ht) as (Ht0 & t & Hta & Htl & Htp).
  pose proof (findIndex_from_first _ e.2 0 fromIdx eq_refl (Z.le_refl 0) Hf) as Hff.
  pose proof (findIndex_from_first _ e.2 0 toIdx eq_refl (Z.le_refl 0) Ht) as Htf.
  rewrite Z.sub_0_r in Hff, Htf.
  rewrite Hfa, Hta, app_nil_l. intros ->%list_elem_of_singleton.
  exists (Z.to_nat fromIdx), (Z.to_nat toIdx), f, t.
  rewrite !Z2Nat.id by lia. split_and!; try done. lia.
Qed.

(** X9: a match of [findTripsWithStops] cuts the stored list of its trip in
    five: stop-times that are not at the from-stop, the from stop-time,
    the intermediate stop-times, none of them at the to-stop, the to
    stop-time, and the rest. So the two ends are the first stop-times at
    the two stops, the two stops differ, and each returned stop-time has
    its stop id as code. *)
Theorem match_shape (localeCompare : string → string → Z) (this : GTFSParser)
    (fromStopId toStopId : string) (date : option Date.t) (r : TripMatch.t) :
  r ∈ findTripsWithStops localeCompare this fromStopId toStopId date →
  ∃ times before after,
    (TripMatch.tripId r, times) ∈ stopTimes this
    ∧ times = before
              ++ EnrichedStopTime.time (TripMatch.fromStop r)
                 :: (EnrichedStopTime.time <$> TripMatch.intermediateStops r)
              ++ EnrichedStopTime.time (TripMatch.toStop r) :: after
    ∧ Forall (λ t, StopTime.stop_id t ≠ fromStopId ∧ StopTime.stop_id t ≠ toStopId) before
    ∧ Forall (λ e, EnrichedStopTime.stop_id e ≠ toStopId) (TripMatch.intermediateStops r)
    ∧ EnrichedStopTime.stop_id (TripMatch.fromStop r) = fromStopId
    ∧ EnrichedStopTime.stop_id (TripMatch.toStop r) = toStopId
    ∧ fromStopId ≠ toStopId
    ∧ Forall (λ e, EnrichedStopTime.stop_code e = EnrichedStopTime.stop_id e
                   ∧ EnrichedStopTime.stop_name e
                     = getStopName this (EnrichedStopTime.stop_id e))
        (TripMatch.fromStop r :: TripMatch.toStop r :: TripMatch.intermediateStops r).
Proof.
  intros ([tid times] & Hv & He)%findTripsWithStops_matching%matchingTrips_elem_of.
  apply visit_inv_first in Hv
    as (i & j & f & t & Hij & Hi & Hj & Hf & Ht & Hbf & Hbt & ->).
  cbn [fst snd TripMatch.tripId TripMatch.fromStop TripMatch.toStop
       TripMatch.intermediateStops] in *.
  unfold stops_at in *. apply String.eqb_eq in Hf, Ht.
  assert (∀ x, x ∈ take j times → StopTime.stop_id x ≠ toStopId) as Hnot_to.
  { intros x Hx. rewrite Forall_forall in Hbt. by apply String.eqb_neq, Hbt. }
  assert (take i times ⊆ take j times) as Hsub.
  { intros x (k & Hk & Hlt)%elem_of_take. apply elem_of_take. exists k. split; [done|lia]. }
  exists times, (take i times), (drop (S j) times).
  rewrite <- list_fmap_compose, slice_between.
  change (EnrichedStopTime.time ∘ enrich this) with (@id StopTime.t).
  rewrite list_fmap_id. split_and!.
  - done.
  - by apply split_at_two.
  - apply Forall_forall. intros x Hx. split; [|by apply Hnot_to, Hsub].
    rewrite Forall_forall in Hbf. by apply String.eqb_neq, Hbf.
  - apply Forall_fmap, Forall_forall. intros x Hx. apply Hnot_to.
    eapply subseteq_drop, subseteq_take, Hx.
  - done.
  - done.
  - intros Heq. apply (Hnot_to f); [|congruence]. apply elem_of_take. by exists i.
  - do 2 (constructor; [done|]). apply Forall_fmap, Forall_forall. by intros x _.
Qed.

Lemma match_shape_witness :
  ∃ r, findTripsWithStops Ascii7.codeUnitCompare Fixture.reversed "B" "C" None = [r]
       ∧ EnrichedStopTime.stop_id <$> TripMatch.intermediateStops r = ["A"]
       ∧ ∃ times before after,
           (TripMatch.tripId r, times) ∈ stopTimes Fixture.reversed
           ∧ times = before
                     ++ EnrichedStopTime.time (TripMatch.fromStop r)
                        :: (EnrichedStopTime.time <$> TripMatch.intermediateStops r)
                     ++ EnrichedStopTime.time (TripMatch.toStop r) :: after.
Proof.
  eexists. split; [by vm_compute|]. split; [by vm_compute|].
  destruct (match_shape Ascii7.codeUnitCompare Fixture.reversed "B" "C" None)
    with (r := TripMatch.mk "T1"
                 (enrich Fixture.reversed (Fixture.at_stop "B" "09:30:00" 2))
                 (enrich Fixture.reversed (Fixture.at_stop "C" "25:15:00" 3))
                 [enrich Fixture.reversed (Fixture.at_stop "A" "08:00:00" 1)])
    as (times & before & after & Hin & Heq & _).
  - vm_compute. left.
  - by exists times, before, after.
Defined.

(** X10: a trip that [findTripsWithStops] returns for two stops and a date
    is among the trips [getTripsForStop] returns for each of the two stops
    and that date. *)
Theorem trips_between_are_trips_at_both (localeCompare : string → string → Z)
    (this : GTFSParser) (fromStopId toStopId : string) (date : option Date.t)
    (r : TripMatch.t) :
  r ∈ findTripsWithStops localeCompare this fromStopId toStopId date →
  TripMatch.tripId r ∈ getTripsForStop this fromStopId date
  ∧ TripMatch.tripId r ∈ getTripsForStop this toStopId date.
Proof.
  intros ([tid times] & Hv & He)%findTripsWithStops_matching%matchingTrips_elem_of.
  apply visit_inv in Hv
    as (Hskip & Hid & i & j & f & t & _ & Hi & Hj & Hf & Ht & _).
  cbn [fst snd] in *. subst tid.
  assert (∀ stopId x, x ∈ times → stops_at stopId x = true →
                      Js.some (stops_at stopId) times = true) as Hsome.
  { intros stopId x Hx Hp. apply existsb_exists. exists x.
    split; [by apply list_elem_of_In|done]. }
  split; apply getTripsForStop_elem_of; exists times; split_and!; try done.
  - apply (Hsome _ f); [by eapply list_elem_of_lookup_2|done].
  - apply (Hsome _ t); [by eapply list_elem_of_lookup_2|done].
Qed.

Lemma trips_between_are_trips_at_both_witness :
  "T1" ∈ getTripsForStop Fixture.feed "A" None
  ∧ "T1" ∈ getTripsForStop Fixture.feed "B" None.
Proof.
  apply (trips_between_are_trips_at_both Ascii7.codeUnitCompare Fixture.feed "A" "B" None
           (TripMatch.mk "T1"
              (enrich Fixture.feed (Fixture.at_stop "A" "08:00:00" 1))
              (enrich Fixture.feed (Fixture.at_stop "B" "09:30:00" 2)) [])).
  vm_compute. left.
Defined.

Lemma visit_at_most_one (this : GTFSParser) (fromStopId toStopId : string)
    (date : option Date.t) (e : string * list StopTime.t) :
  TripMatch.tripId <$> findTripsWithStops_visit this fromStopId toStopId date [] e = []
  ∨ TripMatch.tripId <$> findTripsWithStops_visit this fromStopId toStopId date [] e
    = [e.1].
Proof.
  destruct (skipped_for_date this date e.1) eqn:Hs.
  - left. unfold findTripsWithStops_visit. by rewrite Hs.
  - rewrite (visit_not_skipped this fromStopId toStopId date e Hs).
    destruct (visit_single this fromStopId toStopId e) as [->|(r & -> & <-)];
      [by left|by right].
Qed.

Lemma matchingTrips_ids (this : GTFSParser) (fromStopId toStopId : string)
    (date : option Date.t) :
  TripMatch.tripId <$> matchingTrips this fromStopId toStopId date
  `sublist_of` getAllTripIds this.
Proof.
  rewrite matchingTrips_bind. unfold getAllTripIds, JsMap.keys.
  induction (stopTimes this) as [|e l IH]; [done|].
  rewrite bind_cons, fmap_app, fmap_cons.
  destruct (visit_at_most_one this fromStopId toStopId date e) as [->| ->].
  - by apply sublist_cons.
  - by apply sublist_skip.
Qed.

(** X11: in a loaded store [findTripsWithStops] returns at most one match
    for a trip, so at most as many matches as the store has trips. *)
Theorem one_match_per_trip (localeCompare : string → string → Z) (this : GTFSParser)
    (fromStopId toStopId : string) (date : option Date.t) :
  loaded this →
  NoDup (TripMatch.tripId <$> findTripsWithStops localeCompare this fromStopId toStopId date)
  ∧ (length (findTripsWithStops localeCompare this fromStopId toStopId date)
     ≤ length (getAllTripIds this))%nat.
Proof.
  intros Hl.
  assert (NoDup (TripMatch.tripId <$> matchingTrips this fromStopId toStopId date)) as Hm.
  { eapply sublist_NoDup; [|apply matchingTrips_ids]. by apply loaded_stopTimes_NoDup. }
  assert (findTripsWithStops localeCompare this fromStopId toStopId date
          `sublist_of` Js.sort (byDeparture localeCompare)
                         (matchingTrips this fromStopId toStopId date)) as Hsub
    by apply filter_unseen_sublist.
  split.
  - eapply sublist_NoDup; [|by apply fmap_sublist].
    by rewrite sort_perm.
  - etrans; [by apply sublist_length|]. rewrite sort_length.
    rewrite <- (length_fmap TripMatch.tripId). apply sublist_length, matchingTrips_ids.
Qed.

Lemma one_match_per_trip_witness :
  NoDup (TripMatch.tripId <$>
           findTripsWithStops Ascii7.codeUnitCompare Fixture.with_calendar "A" "B" None)
  ∧ (length (findTripsWithStops Ascii7.codeUnitCompare Fixture.with_calendar "A" "B" None)
     ≤ length (getAllTripIds Fixture.with_calendar))%nat.
Proof.
  apply one_match_per_trip. constructor.
Defined.

(** ** Names *)

Lemma or_else_truthy (s d : string) : d ≠ EmptyString → Js.or_else s d ≠ EmptyString.
Proof.
  intros Hd. unfold Js.or_else. destruct (Js.truthy s) eqn:Hs; [|done].
  by apply truthy_true.
Qed.

(** X12: a display name is never blank: [getRouteName] never returns the
    empty string, [getStopName] returns it for the empty stop id only, and
    each returns the name of the record when the record has one. *)
Theorem names_never_blank (this : GTFSParser) :
  (∀ routeId, getRouteName this routeId ≠ EmptyString)
  ∧ (∀ stopId, stopId ≠ EmptyString → getStopName this stopId ≠ EmptyString)
  ∧ (∀ routeId route, getRoute this routeId = Some route →
       Route.route_long_name route ≠ EmptyString →
       getRouteName this routeId = Route.route_long_name route)
  ∧ (∀ stopId stop, getStop this stopId = Some stop →
       Stop.stop_name stop ≠ EmptyString →
       getStopName this stopId = Stop.stop_name stop)
  ∧ (∀ stopId stop, getStop this stopId = Some stop →
       Stop.stop_name stop = EmptyString → getStopName this stopId = stopId).
Proof.
  unfold getRouteName, getStopName, getRoute, getStop. split_and!.
  - intros routeId. destruct (JsMap.get routeId (routes this)); [|done].
    by apply or_else_truthy.
  - intros stopId Hne. destruct (JsMap.get stopId (stops this)); [|done].
    by apply or_else_truthy.
  - intros routeId route -> Hname%truthy_true. unfold Js.or_else. by rewrite Hname.
  - intros stopId stop -> Hname%truthy_true. unfold Js.or_else. by rewrite Hname.
  - by intros stopId stop -> ->.
Qed.

Section TrailingNumber.

Lemma digits_only_app_underscore (prefix digits : string) :
  JsString.all_chars JsString.is_digit (prefix +:+ String "_"%char digits) = false.
Proof.
  induction prefix as [|c prefix IH]; simpl; [done|].
  rewrite IH. apply andb_false_r.
Qed.

Lemma match_trailing_number_sound (s d : string) :
  JsString.match_trailing_number s = Some d →
  JsString.digits_only d = true ∧ ∃ prefix, s = prefix +:+ String "_"%char d.
Proof.
  induction s as [|c s IH]; simpl; [done|].
  destruct (Ascii.eqb c "_" && JsString.digits_only s) eqn:Hc.
  - intros [= <-]. apply andb_true_iff in Hc as [->%Ascii.eqb_eq Hd].
    split; [done|]. by exists EmptyString.
  - intros [Hd [prefix ->]]%IH. split; [done|]. by exists (String c prefix).
Qed.

Lemma match_trailing_number_complete (prefix digits : string) :
  JsString.digits_only digits = true →
  JsString.match_trailing_number (prefix +:+ String "_"%char digits) = Some digits.
Proof.
  intros Hd. induction prefix as [|c prefix IH]; simpl.
  - by rewrite Hd.
  - unfold JsString.digits_only at 1. rewrite digits_only_app_underscore, andb_false_r, andb_false_r.
    apply IH.
Qed.

End TrailingNumber.

(** X13: [getTrainNumber] returns the short name of the trip when its
    record has a non-empty one. Otherwise it returns the digits that end
    the trip id after an underscore when the id ends so, and the trip id
    itself when it does not; for a trip id that is not empty the result is
    not empty. *)
Theorem train_number_of_trip (this : GTFSParser) (tripId : string) :
  (∀ name, shortName this tripId = Some name → name ≠ EmptyString →
           getTrainNumber this tripId = name)
  ∧ (shortName this tripId = None ∨ shortName this tripId = Some EmptyString →
     (∀ prefix digits, JsString.digits_only digits = true →
                       tripId = prefix +:+ String "_"%char digits →
                       getTrainNumber this tripId = digits)
     ∧ (getTrainNumber this tripId = tripId
        ∨ JsString.digits_only (getTrainNumber this tripId) = true
          ∧ ∃ prefix, tripId = prefix +:+ String "_"%char (getTrainNumber this tripId)))
  ∧ (tripId ≠ EmptyString → getTrainNumber this tripId ≠ EmptyString).
Proof.
  assert (∀ d, JsString.digits_only d = true → d ≠ EmptyString) as Hdigits.
  { intros d [Ht _]%andb_true_iff. by apply truthy_true. }
  assert (default tripId (JsString.match_trailing_number tripId) = tripId
          ∨ JsString.digits_only (default tripId (JsString.match_trailing_number tripId))
            = true
            ∧ ∃ prefix, tripId
                = prefix +:+ String "_"%char
                    (default tripId (JsString.match_trailing_number tripId))) as Hfallback.
  { destruct (JsString.match_trailing_number tripId) as [d|] eqn:Hm; [|by left].
    right. by apply match_trailing_number_sound. }
  unfold shortName, getTrainNumber. split_and!.
  - intros name. destruct (trips this !! tripId) as [trip|]; [|done].
    intros [= ->] Hname%truthy_true. by rewrite Hname.
  - intros Hshort.
    assert (match trips this !! tripId with
            | Some trip =>
                if Js.truthy (Trip.trip_short_name trip) then Trip.trip_short_name trip
                else default tripId (JsString.match_trailing_number tripId)
            | None => default tripId (JsString.match_trailing_number tripId)
            end = default tripId (JsString.match_trailing_number tripId)) as ->.
    { destruct (trips this !! tripId) as [trip|]; [|done].
      destruct Hshort as [[=]|[= ->]]. done. }
    split; [|done]. intros prefix digits Hd ->.
    by rewrite match_trailing_number_complete.
  - intros Hne. destruct (trips this !! tripId) as [trip|].
    + destruct (Js.truthy (Trip.trip_short_name trip)) eqn:Hs; [by apply truthy_true|].
      destruct Hfallback as [->|[Hd _]]; [done|by apply Hdigits].
    + destruct Hfallback as [->|[Hd _]]; [done|by apply Hdigits].
Qed.

Lemma train_number_of_trip_witness :
  getTrainNumber Fixture.feed "T1" = "1234"
  ∧ getTrainNumber Fixture.feed "2024_05_91" = "91"
  ∧ getTrainNumber Fixture.feed "T9" = "T9".
Proof.
  destruct (train_number_of_trip Fixture.feed "T1") as (Hname & _).
  destruct (train_number_of_trip Fixture.feed "2024_05_91") as (_ & Hdigits & _).
  split; [by apply Hname|]. split; [|by vm_compute].
  destruct Hdigits as [Hd _]; [by left|]. by apply (Hd "2024_05").
Defined.

(** ** The calendar *)

Lemma weekday_flag_range (entry : CalendarEntry.t) (dayOfWeek : Z) :
  weekday_flag entry dayOfWeek = true → 0 ≤ dayOfWeek ≤ 6.
Proof.
  unfold weekday_flag.
  repeat match goal with
         | |- context [dayOfWeek =? ?k] => destruct (Z.eqb_spec dayOfWeek k); [lia|]
         end.
  done.
Qed.

Lemma base_schedule_true (this : GTFSParser) (serviceId : string) (date : Date.t) :
  base_schedule this serviceId date = true ↔
  ∃ entry, calendarEntries this !! serviceId = Some entry
           ∧ CalendarEntry.start_date entry ≤ dateInt date ≤ CalendarEntry.end_date entry
           ∧ weekday_flag entry (Date.getDay date) = true.
Proof.
  unfold base_schedule. destruct (calendarEntries this !! serviceId) as [entry|].
  - destruct (Z.ltb_spec (dateInt date) (CalendarEntry.start_date entry)); simpl.
    { split; [done|]. intros (? & [= <-] & ? & _). lia. }
    destruct (Z.ltb_spec (CalendarEntry.end_date entry) (dateInt date)).
    { split; [done|]. intros (? & [= <-] & ? & _). lia. }
    split.
    + intros Hw. exists entry. split_and!; [done|lia|lia|done].
    + by intros (? & [= <-] & _ & Hw).
  - split; [done|]. by intros (? & [=] & _).
Qed.

(** X14: with calendar data in the store, a service with a name runs on a
    date exactly when the date is added for it by an exception of type 1,
    or when no exception of type 2 removes the date, the date is within the
    bounds of the calendar entry of the service, both bounds included, and
    the entry has the flag of the weekday. A service with neither an entry
    nor an exception of type 1 for the date does not run. *)
Theorem service_active_iff (this : GTFSParser) (serviceId : string) (date : Date.t) :
  hasCalendarData this = true →
  serviceId ≠ EmptyString →
  let exception := calendarDateExceptions this !! serviceId ≫= (.!! dateInt date) in
  isServiceActiveOnDate this serviceId date = true ↔
  exception = Some 1
  ∨ (exception ≠ Some 2
     ∧ ∃ entry, calendarEntries this !! serviceId = Some entry
                ∧ CalendarEntry.start_date entry ≤ dateInt date
                  ≤ CalendarEntry.end_date entry
                ∧ 0 ≤ Date.getDay date ≤ 6
                ∧ weekday_flag entry (Date.getDay date) = true).
Proof.
  intros Hflag Hsid%truthy_true. cbv zeta.
  assert (base_schedule this serviceId date = true ↔
          ∃ entry, calendarEntries this !! serviceId = Some entry
                   ∧ CalendarEntry.start_date entry ≤ dateInt date
                     ≤ CalendarEntry.end_date entry
                   ∧ 0 ≤ Date.getDay date ≤ 6
                   ∧ weekday_flag entry (Date.getDay date) = true) as Hbase.
  { rewrite base_schedule_true. split.
    - intros (entry & He & Hr & Hw). exists entry.
      pose proof (weekday_flag_range _ _ Hw). split_and!; try done; lia.
    - intros (entry & He & Hr & _ & Hw). by exists entry. }
  unfold isServiceActiveOnDate. rewrite Hflag, Hsid. simpl.
  destruct (calendarDateExceptions this !! serviceId) as [exceptions|]; simpl.
  - destruct (exceptions !! dateInt date) as [exceptionType|].
    + destruct (Z.eqb_spec exceptionType 1) as [->|H1]; [by split; [left|]|].
      destruct (Z.eqb_spec exceptionType 2) as [->|H2].
      { split; [done|]. by intros [[=]|[? _]]. }
      rewrite Hbase. split; [intros ?; right; split; [congruence|done]|].
      by intros [[= ?]|[_ ?]].
    + rewrite Hbase. split; [by right|]. by intros [[=]|[_ ?]].
  - rewrite Hbase. split; [by right|]. by intros [[=]|[_ ?]].
Qed.

Lemma service_active_iff_witness :
  isServiceActiveOnDate Fixture.with_calendar "S1" Fixture.monday = true
  ∧ isServiceActiveOnDate Fixture.with_calendar "S2" Fixture.monday = false.
Proof.
  split.
  - apply (service_active_iff Fixture.with_calendar "S1" Fixture.monday); [done..|].
    by left.
  - destruct (isServiceActiveOnDate Fixture.with_calendar "S2" Fixture.monday) eqn:Ha;
      [|done].
    apply (service_active_iff Fixture.with_calendar "S2" Fixture.monday) in Ha; [|done..].
    by destruct Ha as [[=]|[Hne _]].
Defined.

Lemma lookup_fold_add_calendar (l : list CalendarEntry.t)
    (m : gmap string CalendarEntry.t) (serviceId : string) :
  fold_left add_calendar l m !! serviceId
  = match List.find (λ e, Js.truthy (CalendarEntry.service_id e)
                          && String.eqb (CalendarEntry.service_id e) serviceId)
            (reverse l) with
    | Some e => Some e
    | None => m !! serviceId
    end.
Proof.
  induction l as [|x l IH] using rev_ind; [done|].
  rewrite fold_left_app, reverse_app. simpl. unfold add_calendar at 1.
  destruct (Js.truthy (CalendarEntry.service_id x)); simpl; [|apply IH].
  destruct (String.eqb_spec (CalendarEntry.service_id x) serviceId) as [->|Hne].
  - by rewrite lookup_insert_eq.
  - rewrite lookup_insert_ne by done. apply IH.
Qed.

Lemma lookup_fold_add_calendar_date (l : list CalendarDateException.t)
    (m : gmap string (gmap Z Z)) (serviceId : string) (d : Z) :
  fold_left add_calendar_date l m !! serviceId ≫= (.!! d)
  = match List.find (λ x, Js.truthy (CalendarDateException.service_id x)
                          && String.eqb (CalendarDateException.service_id x) serviceId
                          && (CalendarDateException.date x =? d))
            (reverse l) with
    | Some x => Some (CalendarDateException.exception_type x)
    | None => m !! serviceId ≫= (.!! d)
    end.
Proof.
  induction l as [|x l IH] using rev_ind; [done|].
  rewrite fold_left_app, reverse_app. simpl. unfold add_calendar_date at 1.
  destruct (Js.truthy (CalendarDateException.service_id x)); simpl; [|apply IH].
  destruct (String.eqb_spec (CalendarDateException.service_id x) serviceId) as [->|Hne];
    simpl.
  - rewrite lookup_insert_eq. simpl.
    destruct (Z.eqb_spec (CalendarDateException.date x) d) as [->|Hd].
    + by rewrite lookup_insert_eq.
    + rewrite lookup_insert_ne by done. rewrite <- IH.
      by destruct (fold_left add_calendar_date l m !! serviceId).
  - rewrite lookup_insert_ne by done. apply IH.
Qed.

(** X15: when the feed names a service more than once, the last calendar
    entry of the service is the one a load keeps, and the last exception
    for a service and a date is the one that counts: if its type is 1 the
    service runs on the date, if its type is 2 it does not. Entries and
    exceptions without a service id are not taken in. *)
Theorem calendar_after_load routes stops stopTimes trips calendar calendarDates
    (serviceId : string) (date : Date.t) :
  let this := overrideData routes stops stopTimes trips calendar calendarDates in
  let last_exception :=
    List.find (λ x, Js.truthy (CalendarDateException.service_id x)
                    && String.eqb (CalendarDateException.service_id x) serviceId
                    && (CalendarDateException.date x =? dateInt date))
      (reverse calendarDates) in
  calendarEntries this !! serviceId
  = List.find (λ e, Js.truthy (CalendarEntry.service_id e)
                    && String.eqb (CalendarEntry.service_id e) serviceId)
      (reverse calendar)
  ∧ calendarDateExceptions this !! serviceId ≫= (.!! dateInt date)
    = CalendarDateException.exception_type <$> last_exception
  ∧ (∀ x, last_exception = Some x →
          (CalendarDateException.exception_type x = 1 →
           isServiceActiveOnDate this serviceId date = true)
          ∧ (CalendarDateException.exception_type x = 2 →
             isServiceActiveOnDate this serviceId date = false))
  ∧ calendarEntries this !! EmptyString = None
  ∧ calendarDateExceptions this !! EmptyString = None.
Proof.
  cbv zeta.
  pose proof (lookup_fold_add_calendar calendar ∅ serviceId) as Hentry.
  pose proof (lookup_fold_add_calendar_date calendarDates ∅ serviceId (dateInt date))
    as Hexc.
  rewrite lookup_empty in Hexc. simpl in Hexc.
  split_and!.
  - simpl. rewrite Hentry, lookup_empty.
    by match goal with |- context [find ?p ?l] => destruct (find p l) end.
  - simpl. rewrite Hexc.
    by match goal with |- context [find ?p ?l] => destruct (find p l) end.
  - intros x Hx. rewrite Hx in Hexc.
    destruct (fold_left add_calendar_date calendarDates ∅ !! serviceId)
      as [exceptions|] eqn:Hs; [|done].
    simpl in Hexc.
    destruct (loaded_exception
                (overrideData routes stops stopTimes trips calendar calendarDates)
                serviceId exceptions) as [Hflag Hsid]; [constructor|done|].
    unfold isServiceActiveOnDate. rewrite Hflag, Hsid.
    cbn [negb calendarDateExceptions overrideData]. rewrite Hs, Hexc.
    split; by intros ->.
  - simpl. rewrite (lookup_fold_add_calendar calendar ∅ EmptyString), lookup_empty.
    match goal with |- context [find ?p ?l] => destruct (find p l) eqn:Hf end; [|done].
    apply find_some in Hf as [_ [Ht Hid%String.eqb_eq]%andb_true_iff].
    by rewrite Hid in Ht.
  - simpl. destruct (fold_left add_calendar_date calendarDates ∅ !! EmptyString)
      as [exceptions|] eqn:Hs; [|done].
    destruct (loaded_exception
                (overrideData routes stops stopTimes trips calendar calendarDates)
                EmptyString exceptions) as [_ Hsid]; [constructor|done|done].
Qed.

(** ** The order of the stop-times *)

Section Stable.
Context {A : Type} (cmp : A → A → Z) (same : A → bool).
Hypothesis Hsame : ∀ a b, same a = true → same b = true → cmp a b ≤ 0.

Lemma insert_sorted_class (x : A) (l : list A) :
  List.filter same (Js.insert_sorted cmp x l) = List.filter same (x :: l).
Proof.
  induction l as [|y r IH]; [done|].
  cbn [Js.insert_sorted]. destruct (Z.ltb_spec 0 (cmp x y)) as [Hlt|Hle]; [|done].
  cbn [List.filter] in *. rewrite IH.
  destruct (same x) eqn:Hx, (same y) eqn:Hy; try done.
  specialize (Hsame x y Hx Hy). lia.
Qed.

(** The sort keeps the elements that compare equal in the order they had. *)
Lemma sort_class (l : list A) : List.filter same (Js.sort cmp l) = List.filter same l.
Proof.
  induction l as [|x r IH]; [done|].
  cbn [Js.sort]. rewrite insert_sorted_class. cbn [List.filter]. by rewrite IH.
Qed.

End Stable.

Lemma filter_fmap_bool {A B} (f : A → B) (p : B → bool) (l : list A) :
  List.filter p (f <$> l) = f <$> List.filter (λ x, p (f x)) l.
Proof.
  induction l as [|x r IH]; [done|].
  rewrite fmap_cons. cbn [List.filter]. rewrite IH. by destruct (p (f x)).
Qed.

Lemma StronglySorted_weaken {A} (R S : relation A) (l : list A) :
  (∀ a b, R a b → S a b) → StronglySorted R l → StronglySorted S l.
Proof.
  intros HRS. induction 1 as [|x r Hr IH Hx]; constructor; [done|].
  eapply Forall_impl; [exact Hx|]. intros y. apply HRS.
Qed.

Lemma sorted_by_sequence (l : list EnrichedStopTime.t) :
  StronglySorted
    (λ a b, EnrichedStopTime.stop_sequence a ≤ EnrichedStopTime.stop_sequence b)
    (Js.sort bySequence l).
Proof.
  eapply StronglySorted_weaken;
    [|apply (sort_sorted bySequence bySequence_total bySequence_trans)].
  intros a b. unfold Js.before, bySequence. lia.
Qed.

(** X16: [getStopTimesForTrip] returns the stop-times stored for the trip,
    each once, in non-decreasing order of [stop_sequence]; the stop-times
    that have the same sequence number stay in the order in which they are
    stored. *)
Theorem stop_times_sorted_stable (this : GTFSParser) (tripId : string) :
  StronglySorted
    (λ a b, EnrichedStopTime.stop_sequence a ≤ EnrichedStopTime.stop_sequence b)
    (getStopTimesForTrip this tripId)
  ∧ getStopTimesForTrip this tripId ≡ₚ enrich this <$> storedTimes this tripId
  ∧ length (getStopTimesForTrip this tripId) = length (storedTimes this tripId)
  ∧ ∀ k, List.filter (λ e, EnrichedStopTime.stop_sequence e =? k)
           (getStopTimesForTrip this tripId)
         = enrich this
           <$> List.filter (λ t, StopTime.stop_sequence t =? k) (storedTimes this tripId).
Proof.
  split_and!.
  - apply sorted_by_sequence.
  - apply getStopTimesForTrip_perm.
  - by rewrite getStopTimesForTrip_perm, length_fmap.
  - intros k. unfold getStopTimesForTrip. cbv zeta. rewrite sort_class.
    + by rewrite filter_fmap_bool.
    + intros a b Ha%Z.eqb_eq Hb%Z.eqb_eq. unfold bySequence. lia.
Qed.

(** X17: [getIntermediateStops] returns the stop-times stored for the trip
    without the first and the last of the stored list, in non-decreasing
    order of [stop_sequence]. Each of them is among the stop-times
    [getStopTimesForTrip] returns; a trip with two stored stop-times or
    fewer has none; and when the list is stored in order of sequence the
    result is [getStopTimesForTrip] without its first and last element. *)
Theorem intermediate_stops_within (this : GTFSParser) (tripId : string) :
  let times := storedTimes this tripId in
  getIntermediateStops this tripId
    ≡ₚ enrich this <$> take (length times - 2) (drop 1 times)
  ∧ StronglySorted
      (λ a b, EnrichedStopTime.stop_sequence a ≤ EnrichedStopTime.stop_sequence b)
      (getIntermediateStops this tripId)
  ∧ (∀ e, e ∈ getIntermediateStops this tripId → e ∈ getStopTimesForTrip this tripId)
  ∧ ((length times ≤ 2)%nat → getIntermediateStops this tripId = [])
  ∧ (StronglySorted (λ a b, StopTime.stop_sequence a ≤ StopTime.stop_sequence b) times →
     getIntermediateStops this tripId
     = Js.slice 1 (-1) (getStopTimesForTrip this tripId)).
Proof.
  cbv zeta. split_and!.
  - by rewrite getIntermediateStops_perm, slice_inner.
  - apply sorted_by_sequence.
  - intros e. rewrite getIntermediateStops_perm, getStopTimesForTrip_perm.
    intros (t & -> & Ht%slice_elem_of)%list_elem_of_fmap.
    by apply list_elem_of_fmap_2.
  - intros Hlen. apply length_zero_iff_nil.
    rewrite getIntermediateStops_length, getStopTimesForTrip_perm, length_fmap. lia.
  - apply getIntermediateStops_of_sorted.
Qed.

(** ** Search *)

Section SearchFacts.
Variable toLowerCase : string → string.
Variable this : GTFSParser.
Variable query : string.

Lemma search_stop_push results stop :
  search_stop toLowerCase query results stop
  = results ++ search_stop toLowerCase query [] stop.
Proof.
  unfold search_stop. cbv zeta.
  repeat case_match; by rewrite ?app_nil_r.
Qed.

Lemma search_route_push results route :
  search_route toLowerCase query results route
  = results ++ search_route toLowerCase query [] route.
Proof.
  unfold search_route. cbv zeta.
  repeat case_match; by rewrite ?app_nil_r.
Qed.

Lemma search_numbered_trip_push results trip :
  search_numbered_trip this results trip = results ++ search_numbered_trip this [] trip.
Proof. done. Qed.

Lemma search_trip_stop_push tripId displayName results stopId :
  search_trip_stop toLowerCase this query tripId displayName results stopId
  = results ++ search_trip_stop toLowerCase this query tripId displayName [] stopId.
Proof.
  unfold search_trip_stop. repeat case_match; by rewrite ?app_nil_r.
Qed.

Lemma search_trip_stop_answers (tripId : string) (times : list StopTime.t)
    (displayName : string) :
  (tripId, times) ∈ stopTimes this →
  Forall (λ r, SearchResult.type r = SearchResult.train
               ∧ answers toLowerCase this query r)
    (Js.filter_unseen id ∅ (StopTime.stop_id <$> times)
     ≫= search_trip_stop toLowerCase this query tripId displayName []).
Proof.
  intros Hstored. apply Forall_forall.
  intros r (stopId & Hr & Hstop)%list_elem_of_bind.
  apply filter_unseen_elem_of, list_elem_of_fmap in Hstop as (t & -> & Ht).
  unfold search_trip_stop in Hr.
  destruct (JsMap.get (StopTime.stop_id t) (stops this)) as [stop|] eqn:Hg;
    [|by apply elem_of_nil in Hr].
  destruct (JsString.includes _ _) eqn:Hinc; [|by apply elem_of_nil in Hr].
  apply list_elem_of_singleton in Hr as ->.
  split; [done|]. unfold answers. cbn. split; [done|].
  exists stop, t. split_and!; try done. by exists times.
Qed.

(** The results of the four passes, one after the other. *)
Lemma search_results_passes :
  ∃ trains,
    search_results toLowerCase this query
    = (getAllStops this ≫= search_stop toLowerCase query [])
      ++ (getAllRoutes this ≫= search_route toLowerCase query [])
      ++ trains
    ∧ Forall (λ r, SearchResult.type r = SearchResult.train
                   ∧ answers toLowerCase this query r) trains.
Proof.
  unfold search_results. cbv zeta.
  rewrite (fold_left_push (search_stop toLowerCase query)) by apply search_stop_push.
  rewrite (fold_left_push (search_route toLowerCase query)) by apply search_route_push.
  cbn [app]. unfold getAllStops, getAllRoutes.
  set (found := (JsMap.values (stops this) ≫= search_stop toLowerCase query [])
                ++ (JsMap.values (routes this) ≫= search_route toLowerCase query [])).
  (* the trips that carry the number *)
  assert (∃ numbered,
            search_by_number toLowerCase this query found = found ++ numbered
            ∧ Forall (λ r, SearchResult.type r = SearchResult.train
                           ∧ answers toLowerCase this query r) numbered)
    as (numbered & -> & Hnumbered).
  { unfold search_by_number.
    destruct (Js.truthy (trainNumberQuery toLowerCase query)) eqn:Hq;
      [|exists []; by rewrite app_nil_r].
    rewrite (fold_left_push (search_numbered_trip this))
      by apply search_numbered_trip_push.
    eexists. split; [done|].
    apply Forall_forall. intros r (trip & Hr & Htrip)%list_elem_of_bind.
    apply list_elem_of_singleton in Hr as ->.
    split; [done|]. unfold answers. cbn. split_and!; [done|by apply truthy_true|].
    left. exists trip. split; [|done]. unfold getTripsByNumber.
    by apply slice_elem_of in Htrip. }
  (* the trips by their id and their stops *)
  assert (∀ entries acc,
            (∀ e, e ∈ entries → e ∈ stopTimes this) →
            ∃ trains,
              fold_left (search_trip toLowerCase this query) entries acc = acc ++ trains
              ∧ Forall (λ r, SearchResult.type r = SearchResult.train
                             ∧ answers toLowerCase this query r) trains) as Htrips.
  { induction entries as [|e entries IH]; intros acc Hsub; simpl.
    { exists []. by rewrite app_nil_r. }
    assert (∃ trains,
              search_trip toLowerCase this query acc e = acc ++ trains
              ∧ Forall (λ r, SearchResult.type r = SearchResult.train
                             ∧ answers toLowerCase this query r) trains)
      as (first & -> & Hfirst).
    { unfold search_trip. cbv zeta.
      rewrite (fold_left_push (search_trip_stop toLowerCase this query _ _))
        by apply search_trip_stop_push.
      pose proof (search_trip_stop_answers e.1 e.2) as Hstops.
      destruct (Js.truthy (trainNumberQuery toLowerCase query)
                && JsString.endsWith (toLowerCase e.1) (trainNumberQuery toLowerCase query)
                && negb (bool_decide (is_Some (Js.find _ acc)))) eqn:Hc.
      - rewrite <- app_assoc. eexists. split; [done|].
        apply Forall_app. split; [|apply Hstops, Hsub; destruct e; left].
        apply Forall_singleton. split; [done|].
        apply andb_true_iff in Hc as [[Hq Hends]%andb_true_iff _].
        unfold answers. cbn. split_and!; [done|by apply truthy_true|].
        right. split; [|done]. unfold getAllTripIds, JsMap.keys.
        apply list_elem_of_fmap. exists e. split; [done|]. apply Hsub. left.
      - eexists. split; [done|]. apply Hstops, Hsub. destruct e. left. }
    destruct (IH (acc ++ first)) as (rest & -> & Hrest).
    { intros e' He'. apply Hsub. by right. }
    exists (first ++ rest). rewrite <- app_assoc. split; [done|].
    by apply Forall_app. }
  destruct (Htrips (stopTimes this) (found ++ numbered)) as (trains & -> & Htrains);
    [done|].
  exists (numbered ++ trains). split.
  - unfold found. by rewrite <- !app_assoc.
  - by apply Forall_app.
Qed.

Lemma search_stop_answers (r : SearchResult.t) :
  r ∈ getAllStops this ≫= search_stop toLowerCase query [] →
  SearchResult.type r = SearchResult.station ∧ answers toLowerCase this query r.
Proof.
  intros (stop & Hr & Hstop)%list_elem_of_bind.
  unfold search_stop in Hr. cbv zeta in Hr. unfold answers, station_matches.
  destruct (JsString.includes (toLowerCase (Stop.stop_name stop)) _) eqn:Hname.
  - apply list_elem_of_singleton in Hr as ->. cbn. by rewrite Hname.
  - destruct (JsString.includes (toLowerCase (Stop.stop_id stop)) _) eqn:Hid;
      [|by apply elem_of_nil in Hr].
    apply list_elem_of_singleton in Hr as ->. cbn. by rewrite Hname, Hid.
Qed.

Lemma search_route_answers (r : SearchResult.t) :
  r ∈ getAllRoutes this ≫= search_route toLowerCase query [] →
  SearchResult.type r = SearchResult.route ∧ answers toLowerCase this query r.
Proof.
  intros (route & Hr & Hroute)%list_elem_of_bind.
  unfold search_route in Hr. cbv zeta in Hr. unfold answers.
  match type of Hr with context [if ?c then _ else _] => destruct c eqn:Hc end;
    [|by apply elem_of_nil in Hr].
  apply list_elem_of_singleton in Hr as ->. cbn. split_and!; try done.
  apply orb_true_iff in Hc as [[Hl|Hs]%orb_true_iff|Hi]; [by left| |by right; right].
  right. left. destruct (Route.route_short_name route) as [short|]; [|done].
  by exists short.
Qed.

End SearchFacts.

(** X18: every result of [search] is backed by the store: a station or a
    route result carries a stop or a route of the store whose name or id
    contains the query; a train result carries the id of a trip that has
    the train number asked for, or whose id ends with it, or it names a
    trip and a stop of the trip whose name contains the query. The kind of
    the result is the kind of what it carries. *)
Theorem search_sound (toLowerCase : string → string) (this : GTFSParser)
    (query : string) (r : SearchResult.t) :
  r ∈ search toLowerCase this query → answers toLowerCase this query r.
Proof.
  intros Hr.
  assert (r ∈ search_results toLowerCase this query) as Hin.
  { unfold search in Hr. by apply slice_elem_of, filter_unseen_elem_of in Hr. }
  destruct (search_results_passes toLowerCase this query) as (trains & Heq & Htrains).
  rewrite Heq in Hin.
  apply elem_of_app in Hin as [Hin|[Hin|Hin]%elem_of_app].
  - by apply search_stop_answers.
  - by apply search_route_answers.
  - rewrite Forall_forall in Htrains. by apply Htrains.
Qed.

Lemma search_sound_witness :
  ∃ r, r ∈ search Ascii7.toLowerCase Fixture.feed "union"
       ∧ answers Ascii7.toLowerCase Fixture.feed "union" r.
Proof.
  eexists. split; [|apply search_sound]; vm_compute; left.
Defined.

(** X19: [search] lists the stations first, then the routes, then the
    trains. *)
Theorem search_by_kind (toLowerCase : string → string) (this : GTFSParser)
    (query : string) :
  ∃ stations routes trains,
    search toLowerCase this query = stations ++ routes ++ trains
    ∧ Forall (λ r, SearchResult.type r = SearchResult.station) stations
    ∧ Forall (λ r, SearchResult.type r = SearchResult.route) routes
    ∧ Forall (λ r, SearchResult.type r = SearchResult.train) trains.
Proof.
  assert (search toLowerCase this query
          `sublist_of` search_results toLowerCase this query) as Hsub.
  { unfold search. etrans; [apply slice_sublist|apply filter_unseen_sublist]. }
  destruct (search_results_passes toLowerCase this query) as (trains & Heq & Htrains).
  rewrite Heq in Hsub.
  apply sublist_app_r in Hsub as (stations & rest & -> & Hstations & Hrest).
  apply sublist_app_r in Hrest as (routes & trains' & -> & Hroutes & Htrains').
  exists stations, routes, trains'. split; [done|]. split_and!.
  - apply Forall_forall. intros r Hr.
    apply (search_stop_answers toLowerCase this query).
    eapply elem_of_sublist; [exact Hr|done].
  - apply Forall_forall. intros r Hr.
    apply (search_route_answers toLowerCase this query).
    eapply elem_of_sublist; [exact Hr|done].
  - apply Forall_forall. intros r Hr. rewrite Forall_forall in Htrains.
    apply Htrains. eapply elem_of_sublist; [exact Hr|done].
Qed.

(** ** Stations *)

Lemma filter_unseen_all {A} (key : A → string) (seen : gset string) (l : list A) :
  NoDup (key <$> l) → (∀ x, x ∈ l → key x ∉ seen) →
  Js.filter_unseen key seen l = l.
Proof.
  revert seen. induction l as [|x r IH]; intros seen Hnd Hseen; simpl; [done|].
  rewrite fmap_cons in Hnd. apply NoDup_cons in Hnd as [Hx Hr].
  rewrite bool_decide_eq_false_2 by (apply Hseen; left).
  f_equal. apply IH; [done|].
  intros y Hy. rewrite elem_of_union, elem_of_singleton.
  intros [Heq|Hin].
  - apply Hx. rewrite <- Heq. by apply list_elem_of_fmap_2.
  - apply (Hseen y); [by right|done].
Qed.

Lemma omap_take_total {A B} (f : A → option B) (n : nat) (l : list A) :
  Forall (λ x, is_Some (f x)) l → omap f (take n l) = take n (omap f l).
Proof.
  intros Hl. revert n. induction Hl as [|x r [y Hy] Hr IH]; intros n.
  - by destruct n.
  - destruct n as [|n]; [done|]. cbn [take omap list_omap]. rewrite Hy. simpl.
    by rewrite IH.
Qed.

Lemma omap_none {A B} (f : A → option B) (l : list A) :
  Forall (λ x, f x = None) l → omap f l = [].
Proof. induction 1 as [|x r Hx Hr IH]; simpl; [done|]. by rewrite Hx. Qed.

Lemma fold_left_filter {A} (p : A → bool) (l acc : list A) :
  fold_left (λ results x, if p x then results ++ [x] else results) l acc
  = acc ++ List.filter p l.
Proof.
  revert acc. induction l as [|x r IH]; intros acc; simpl.
  - by rewrite app_nil_r.
  - rewrite IH. destruct (p x); [|done]. by rewrite <- app_assoc.
Qed.

Lemma filter_sublist {A} (p : A → bool) (l : list A) : List.filter p l `sublist_of` l.
Proof.
  induction l as [|x r IH]; simpl; [done|].
  destruct (p x); [by apply sublist_skip|by apply sublist_cons].
Qed.

Lemma take_filter_complete {A} (p : A → bool) (n : nat) (l : list A) (x : A) :
  x ∈ l → p x = true → (length (take n (List.filter p l)) < n)%nat →
  x ∈ take n (List.filter p l).
Proof.
  intros Hx Hp Hlen. rewrite length_take in Hlen.
  rewrite take_ge by lia. apply list_elem_of_In, filter_In.
  split; [by apply list_elem_of_In|done].
Qed.

(** After a load every stop is filed under its id, once. *)
Lemma loaded_stops (this : GTFSParser) :
  loaded this →
  NoDup (JsMap.keys (stops this))
  ∧ ∀ k stop, (k, stop) ∈ stops this → Stop.stop_id stop = k.
Proof.
  intros (rs & ss & sts & ts & c & cd & ->)%loaded_inv. simpl.
  assert (∀ m : JsMap Stop.t,
            NoDup (JsMap.keys m) ∧ (∀ k stop, (k, stop) ∈ m → Stop.stop_id stop = k) →
            NoDup (JsMap.keys (fold_left add_stop ss m))
            ∧ ∀ k stop, (k, stop) ∈ fold_left add_stop ss m → Stop.stop_id stop = k)
    as Hfold.
  { induction ss as [|s r IH]; intros m Hm; simpl; [done|].
    apply IH. unfold add_stop. destruct (Js.truthy (Stop.stop_id s)); [|done].
    destruct Hm as [Hnd Hkey]. split; [by apply set_NoDup|].
    intros k stop [[= -> ->]|Hin]%set_elem_of; [done|by apply Hkey]. }
  apply Hfold. split; [constructor|]. by intros k stop ?%elem_of_nil.
Qed.

Lemma loaded_stop_ids (this : GTFSParser) :
  loaded this → NoDup (Stop.stop_id <$> getAllStops this).
Proof.
  intros [Hnd Hkey]%loaded_stops. unfold getAllStops, JsMap.values.
  assert (Stop.stop_id <$> (stops this).*2 = JsMap.keys (stops this)) as ->; [|done].
  unfold JsMap.keys. rewrite <- list_fmap_compose.
  apply list_fmap_ext. intros i [k stop] Hi. simpl.
  apply Hkey. by eapply list_elem_of_lookup_2.
Qed.

Section Stations.
Variable toLowerCase : string → string.
Variable this : GTFSParser.
Variable query : string.

Lemma searchStations_filter :
  searchStations toLowerCase this query
  = take 10 (List.filter (station_matches toLowerCase query) (getAllStops this)).
Proof.
  unfold searchStations. cbv zeta.
  rewrite (fold_left_filter (station_matches toLowerCase query)).
  apply (slice_prefix 10).
Qed.

Lemma search_stop_stops (l : list Stop.t) :
  omap stop_of (l ≫= search_stop toLowerCase query [])
  = List.filter (station_matches toLowerCase query) l.
Proof.
  induction l as [|stop r IH]; [done|].
  rewrite bind_cons, omap_app, IH. cbn [List.filter].
  unfold search_stop, station_matches. cbv zeta.
  destruct (JsString.includes (toLowerCase (Stop.stop_name stop)) _); [done|].
  by destruct (JsString.includes (toLowerCase (Stop.stop_id stop)) _).
Qed.

Lemma search_stop_id (l : list Stop.t) (r : SearchResult.t) :
  r ∈ l ≫= search_stop toLowerCase query [] →
  ∃ stop, stop ∈ l ∧ stop_of r = Some stop
          ∧ (SearchResult.id r = "stop-name-" +:+ Stop.stop_id stop
             ∨ SearchResult.id r = "stop-id-" +:+ Stop.stop_id stop).
Proof.
  intros (stop & Hr & Hstop)%list_elem_of_bind. exists stop. split; [done|].
  unfold search_stop in Hr. cbv zeta in Hr.
  repeat case_match; try by apply elem_of_nil in Hr.
  all: apply list_elem_of_singleton in Hr as ->; split; [done|]; auto.
Qed.

Lemma search_stop_NoDup (l : list Stop.t) :
  NoDup (Stop.stop_id <$> l) →
  NoDup (SearchResult.id <$> (l ≫= search_stop toLowerCase query [])).
Proof.
  induction l as [|stop r IH]; [constructor|].
  rewrite fmap_cons, NoDup_cons. intros [Hstop Hr].
  rewrite bind_cons, fmap_app. apply NoDup_app. split_and!; [|intros k Hk|by apply IH].
  - unfold search_stop. cbv zeta.
    repeat case_match; solve [apply NoDup_nil_2|apply NoDup_singleton].
  - intros (r' & Hk' & (stop' & Hin & _ & Hid)%search_stop_id)%list_elem_of_fmap.
    apply list_elem_of_fmap in Hk as (r0 & -> & Hr0).
    assert (r0 ∈ [stop] ≫= search_stop toLowerCase query []) as Hr1.
    { rewrite bind_cons. apply elem_of_app. by left. }
    apply search_stop_id in Hr1 as (? & ->%list_elem_of_singleton & _ & Hid0).
    apply Hstop. apply list_elem_of_fmap. exists stop'. split; [|done].
    destruct Hid as [Hid|Hid], Hid0 as [Hid0|Hid0]; rewrite Hid, Hid0 in Hk';
      cbn in Hk'; by simplify_eq.
Qed.

End Stations.

(** X20: [searchStations] returns the first ten stops of the store, in
    the order of the store, whose name or id contains the query without
    regard to case: never more than ten, only stops that match, every
    matching stop when there are fewer than ten, and after a load no stop
    twice. *)
Theorem stations_found (toLowerCase : string → string) (this : GTFSParser)
    (query : string) :
  let found := searchStations toLowerCase this query in
  (length found ≤ 10)%nat
  ∧ found `sublist_of` getAllStops this
  ∧ (∀ stop, stop ∈ found → station_matches toLowerCase query stop = true)
  ∧ (∀ stop, stop ∈ getAllStops this →
             station_matches toLowerCase query stop = true →
             (length found < 10)%nat → stop ∈ found)
  ∧ found = take 10 (List.filter (station_matches toLowerCase query) (getAllStops this))
  ∧ (loaded this → NoDup (Stop.stop_id <$> found)).
Proof.
  cbv zeta. rewrite searchStations_filter. split_and!.
  - rewrite length_take. lia.
  - etrans; [apply sublist_take|apply filter_sublist].
  - intros stop Hin. apply elem_of_take in Hin as (i & Hi & _).
    apply list_elem_of_lookup_2, list_elem_of_In, filter_In in Hi. by destruct Hi.
  - intros stop Hin Hm Hlen. by apply take_filter_complete.
  - done.
  - intros Hl. eapply sublist_NoDup; [by apply loaded_stop_ids|].
    apply fmap_sublist. etrans; [apply sublist_take|apply filter_sublist].
Qed.

(** X21: after a load the stations [search] lists are the first twenty of
    the stops that [searchStations] tests with success, so [searchStations]
    returns the stops of the first ten station results of [search]. *)
Theorem search_agrees_with_stations (toLowerCase : string → string)
    (this : GTFSParser) (query : string) :
  loaded this →
  omap stop_of (search toLowerCase this query)
  = take 20 (List.filter (station_matches toLowerCase query) (getAllStops this))
  ∧ searchStations toLowerCase this query
    = take 10 (omap stop_of (search toLowerCase this query)).
Proof.
  intros Hl.
  assert (omap stop_of (search toLowerCase this query)
          = take 20 (List.filter (station_matches toLowerCase query) (getAllStops this)))
    as Hstations.
  { destruct (search_results_passes toLowerCase this query) as (trains & Heq & Htrains).
    unfold search. rewrite Heq, filter_unseen_app.
    rewrite filter_unseen_all; cycle 1.
    { by apply search_stop_NoDup, loaded_stop_ids. }
    { intros x _. apply not_elem_of_empty. }
    rewrite (slice_prefix 20), take_app, omap_app, omap_take_total; cycle 1.
    { apply Forall_forall. intros r (stop & _ & -> & _)%search_stop_id. by eexists. }
    rewrite search_stop_stops, (omap_none stop_of), app_nil_r; [done|].
    apply Forall_forall. intros r (i & Hr & _)%elem_of_take.
    apply list_elem_of_lookup_2, filter_unseen_elem_of in Hr.
    assert (SearchResult.type r ≠ SearchResult.station
            ∧ answers toLowerCase this query r) as [Hkind Hanswer].
    { apply elem_of_app in Hr as [Hr|Hr].
      - apply search_route_answers in Hr as [-> ?]. by split.
      - rewrite Forall_forall in Htrains. apply Htrains in Hr as [-> ?]. by split. }
    unfold answers in Hanswer. unfold stop_of.
    destruct (SearchResult.data r); try done. by destruct Hanswer. }
  split; [done|].
  rewrite Hstations, searchStations_filter, take_take. by f_equal.
Qed.

Lemma search_agrees_with_stations_witness :
  omap stop_of (search Ascii7.toLowerCase Fixture.feed "station")
  = [Fixture.union_station; Fixture.central_station]
  ∧ searchStations Ascii7.toLowerCase Fixture.feed "station"
    = take 10 (omap stop_of (search Ascii7.toLowerCase Fixture.feed "station")).
Proof.
  destruct (search_agrees_with_stations Ascii7.toLowerCase Fixture.feed "station")
    as [Hstations Hfound]; [constructor|].
  split; [by rewrite Hstations|done].
Defined.

(** ** No qualifying trip is lost *)

Lemma findIndex_from_app {A} (p : A → bool) (pre post : list A) (x : A) (i : Z) :
  Forall (λ y, p y = false) pre → p x = true →
  Js.findIndex_from p (pre ++ x :: post) i = i + Z.of_nat (length pre).
Proof.
  intros Hpre Hx. revert i. induction Hpre as [|y r Hy Hr IH]; intros i; simpl.
  - rewrite Hx. lia.
  - rewrite Hy, IH. lia.
Qed.

Lemma at_index_app {A} (pre post : list A) (x : A) :
  Js.at_index (pre ++ x :: post) (Z.of_nat (length pre)) = Some x.
Proof.
  unfold Js.at_index. destruct (Z.ltb_spec (Z.of_nat (length pre)) 0); [lia|].
  rewrite Nat2Z.id. by apply list_lookup_middle.
Qed.

Lemma slice_middle {A} (before middle after : list A) (a b : A) :
  Js.slice (Z.of_nat (length before) + 1)
           (Z.of_nat (length before + S (length middle)))
           (before ++ a :: middle ++ b :: after)
  = middle.
Proof.
  rewrite slice_between.
  replace (length before + S (length middle) - S (length before))%nat
    with (length middle) by lia.
  replace (before ++ a :: middle ++ b :: after)
    with ((before ++ a :: middle) ++ b :: after) by by rewrite <- app_assoc.
  rewrite take_app_length'; [|rewrite length_app; simpl; lia].
  replace (before ++ a :: middle) with ((before ++ [a]) ++ middle)
    by by rewrite <- app_assoc.
  rewrite drop_app_length'; [|rewrite length_app; simpl; lia].
  by rewrite firstn_all.
Qed.

(** The callback on a trip that calls at the first stop and later at the
    second one. *)
Lemma visit_qualifying (this : GTFSParser) (fromStopId toStopId : string)
    (date : option Date.t) (tripId : string)
    (before middle after : list StopTime.t) (f t : StopTime.t) :
  skipped_for_date this date tripId = false →
  StopTime.stop_id f = fromStopId → StopTime.stop_id t = toStopId →
  Forall (λ x, StopTime.stop_id x ≠ fromStopId ∧ StopTime.stop_id x ≠ toStopId) before →
  Forall (λ x, StopTime.stop_id x ≠ toStopId) (f :: middle) →
  findTripsWithStops_visit this fromStopId toStopId date []
    (tripId, before ++ f :: middle ++ t :: after)
  = [ {| TripMatch.tripId := tripId;
         TripMatch.fromStop := enrich this f;
         TripMatch.toStop := enrich this t;
         TripMatch.intermediateStops := enrich this <$> middle |} ].
Proof.
  intros Hdate Hf Ht Hbefore Hmiddle.
  unfold findTripsWithStops_visit. cbv zeta. cbn [fst snd]. rewrite Hdate.
  assert (Js.findIndex (stops_at fromStopId) (before ++ f :: middle ++ t :: after)
          = Z.of_nat (length before)) as ->.
  { unfold Js.findIndex. rewrite findIndex_from_app; [lia| |].
    - eapply Forall_impl; [exact Hbefore|]. intros x [Hx _]. unfold stops_at.
      by apply String.eqb_neq.
    - unfold stops_at. by apply String.eqb_eq. }
  assert (Js.findIndex (stops_at toStopId) (before ++ f :: middle ++ t :: after)
          = Z.of_nat (length before + S (length middle))) as ->.
  { unfold Js.findIndex.
    replace (before ++ f :: middle ++ t :: after)
      with ((before ++ f :: middle) ++ t :: after) by by rewrite <- app_assoc.
    rewrite findIndex_from_app.
    - rewrite length_app. simpl. lia.
    - apply Forall_app. split.
      + eapply Forall_impl; [exact Hbefore|]. intros x [_ Hx]. unfold stops_at.
        by apply String.eqb_neq.
      + eapply Forall_impl; [exact Hmiddle|]. intros x Hx. unfold stops_at.
        by apply String.eqb_neq.
    - unfold stops_at. by apply String.eqb_eq. }
  destruct (Z.eqb_spec (Z.of_nat (length before)) (-1)); [lia|].
  destruct (Z.eqb_spec (Z.of_nat (length before + S (length middle))) (-1)); [lia|].
  destruct (Z.ltb_spec (Z.of_nat (length before))
              (Z.of_nat (length before + S (length middle)))); [|lia].
  cbn [negb andb]. rewrite at_index_app.
  replace (before ++ f :: middle ++ t :: after)
    with ((before ++ f :: middle) ++ t :: after) at 1 by by rewrite <- app_assoc.
  replace (length before + S (length middle))%nat with (length (before ++ f :: middle))
    at 1 by (rewrite length_app; simpl; lia).
  rewrite at_index_app. cbn [app]. by rewrite slice_middle.
Qed.

(** X22: no qualifying trip is lost. A stored trip that passes the date
    test and calls at the from-stop before its first call at the to-stop
    gives a match from its first call at the from-stop to its first call
    at the to-stop, with the stop-times between the two as intermediate
    stops; the result of [findTripsWithStops] has that match or one with
    the same train number and the same departure. *)
Theorem trips_between_complete (localeCompare : string → string → Z)
    (this : GTFSParser) (fromStopId toStopId : string) (date : option Date.t)
    (tripId : string) (before middle after : list StopTime.t) (f t : StopTime.t) :
  (tripId, before ++ f :: middle ++ t :: after) ∈ stopTimes this →
  skipped_for_date this date tripId = false →
  StopTime.stop_id f = fromStopId → StopTime.stop_id t = toStopId →
  Forall (λ x, StopTime.stop_id x ≠ fromStopId ∧ StopTime.stop_id x ≠ toStopId) before →
  Forall (λ x, StopTime.stop_id x ≠ toStopId) (f :: middle) →
  let found := {| TripMatch.tripId := tripId;
                  TripMatch.fromStop := enrich this f;
                  TripMatch.toStop := enrich this t;
                  TripMatch.intermediateStops := enrich this <$> middle |} in
  found ∈ matchingTrips this fromStopId toStopId date
  ∧ ∃ r, r ∈ findTripsWithStops localeCompare this fromStopId toStopId date
         ∧ dedupKey this r
           = trainNumberOf this tripId +:+ "-" +:+ StopTime.departure_time f.
Proof.
  intros Hstored Hdate Hf Ht Hbefore Hmiddle found.
  assert (found ∈ matchingTrips this fromStopId toStopId date) as Hfound.
  { apply matchingTrips_elem_of. eexists. split; [|exact Hstored].
    rewrite visit_qualifying by done. left. }
  split; [done|].
  destruct (filter_unseen_represented (dedupKey this) ∅
              (Js.sort (byDeparture localeCompare)
                 (matchingTrips this fromStopId toStopId date)) found)
    as (r & Hr & Hkey).
  { by apply sort_elem_of. }
  { apply not_elem_of_empty. }
  by exists r.
Qed.

Lemma trips_between_complete_witness :
  ∃ r, r ∈ findTripsWithStops Ascii7.codeUnitCompare Fixture.reversed "B" "C" None
       ∧ dedupKey Fixture.reversed r = "1234-09:30:00".
Proof.
  destruct (trips_between_complete Ascii7.codeUnitCompare Fixture.reversed "B" "C" None
              "T1" [] [Fixture.at_stop "A" "08:00:00" 1] []
              (Fixture.at_stop "B" "09:30:00" 2) (Fixture.at_stop "C" "25:15:00" 3))
    as [_ Hr]; [vm_compute; left|done|done|done|constructor|by repeat constructor|].
  exact Hr.
Defined.

(** ** The stop-times of a trip at a stop *)

Lemma find_elem_of {A} (p : A → bool) (l : list A) (x : A) :
  x ∈ l → p x = true → ∃ y, List.find p l = Some y.
Proof.
  induction 1 as [x r|x z r Hx IH]; intros Hp; simpl.
  - rewrite Hp. by exists x.
  - destruct (p z); [by exists z|by apply IH].
Qed.

(** X23: after a load, a trip that [getTripsForStop] returns for a stop has
    stop-times, and the first of them at that stop is found in the list
    [getStopTimesForTrip] returns for the trip: the callers that read the
    list of the first trip at a stop, or look the stop up in it, find what
    they look for. *)
Theorem trip_at_stop_has_the_stop (this : GTFSParser) (stopId tripId : string)
    (date : option Date.t) :
  loaded this →
  tripId ∈ getTripsForStop this stopId date →
  getStopTimesForTrip this tripId ≠ []
  ∧ ∃ e, Js.find (λ s, String.eqb (EnrichedStopTime.stop_id s) stopId)
           (getStopTimesForTrip this tripId) = Some e
         ∧ EnrichedStopTime.stop_id e = stopId
         ∧ EnrichedStopTime.stop_code e = stopId
         ∧ stored this tripId (EnrichedStopTime.time e).
Proof.
  intros Hl (times & Hin & Hsome & _)%getTripsForStop_elem_of.
  apply existsb_exists in Hsome as (t & Ht%list_elem_of_In & Hat).
  assert (storedTimes this tripId = times) as Hstored.
  { unfold storedTimes. by rewrite (elem_of_get tripId times) by
      (by apply loaded_stopTimes_NoDup || done). }
  assert (enrich this t ∈ getStopTimesForTrip this tripId) as Hret.
  { rewrite getStopTimesForTrip_perm, Hstored. by apply list_elem_of_fmap_2. }
  split.
  { intros Hnil. rewrite Hnil in Hret. by apply elem_of_nil in Hret. }
  destruct (find_elem_of (λ s, String.eqb (EnrichedStopTime.stop_id s) stopId)
              _ _ Hret Hat) as (e & He).
  exists e. split; [done|].
  apply find_some in He as [He%list_elem_of_In Hid%String.eqb_eq].
  rewrite getStopTimesForTrip_perm, Hstored in He.
  apply list_elem_of_fmap in He as (t' & -> & Ht').
  split_and!; [done|done|]. by exists times.
Qed.

Lemma trip_at_stop_has_the_stop_witness :
  "T1" ∈ getTripsForStop Fixture.reversed "A" None
  ∧ ∃ e, Js.find (λ s, String.eqb (EnrichedStopTime.stop_id s) "A")
           (getStopTimesForTrip Fixture.reversed "T1") = Some e
         ∧ EnrichedStopTime.stop_id e = "A".
Proof.
  assert ("T1" ∈ getTripsForStop Fixture.reversed "A" None) as Hin
    by (vm_compute; left).
  split; [done|].
  destruct (trip_at_stop_has_the_stop Fixture.reversed "A" "T1" None)
    as (_ & e & Hfind & Hid & _); [constructor|done|].
  by exists e.
Defined.
